(** * Multi-Serial-Scanner: the reconciliation loop and the per-device reader

    A shallow embedding of [app/main.py].  Python values are modelled as
    follows:
    - [str] is a list of Unicode code points ([list N]);
    - [bytes] is a list of [Byte.byte];
    - a [dict] used as a map is a [gmap], a [set] is a [gset];
    - the interpreter's exceptions are an inductive type, and code that may
      raise lives in a small state-and-exception monad.

    What the host does is an input of the embedding: the outcome of the
    port listing and of each attempt to open a device, the successive
    results of [readline], the readings of the clock, the order in which a
    set is iterated, and the interpreter's [fnmatch].  The bus client is
    the list of the messages handed to [publish].

    The tasks of the readers run concurrently with the loop; here they
    take their turns while the loop sleeps, so that a tick sees the readers
    in the state the previous sleep left them in. *)

From Stdlib Require Import NArith Ascii String.
From Stdlib.Strings Require Import Byte.
From stdpp Require Import gmap list sorting.

Local Open Scope N_scope.

#[local] Set Warnings "-clear-no-such-hyp".

(** ** Python strings and bytes *)

Abbreviation str := (list N).
Abbreviation bytes := (list byte).

(** A literal of the source, character by character. *)
Definition lit (s : string) : str :=
  map N_of_ascii (list_ascii_of_string s).

(** [str.replace(old, new)] for one-character [old] and [new]. *)
Definition replace (old new : N) (s : str) : str :=
  map (fun c => if c =? old then new else c) s.

(** [str.isspace] on one code point: the Unicode white space table of
    CPython ([_PyUnicode_IsWhitespace]). *)
Definition isspace (c : N) : bool :=
  ((0x09 <=? c) && (c <=? 0x0D)) || ((0x1C <=? c) && (c <=? 0x20))
  || (c =? 0x85) || (c =? 0xA0) || (c =? 0x1680)
  || ((0x2000 <=? c) && (c <=? 0x200A))
  || (c =? 0x2028) || (c =? 0x2029) || (c =? 0x202F) || (c =? 0x205F)
  || (c =? 0x3000).

Fixpoint lstrip (s : str) : str :=
  match s with
  | c :: s' => if isspace c then lstrip s' else s
  | [] => []
  end.

Definition rstrip (s : str) : str := rev (lstrip (rev s)).

(** [str.strip()] *)
Definition strip (s : str) : str := rstrip (lstrip s).

(** One hexadecimal digit, lowercase. *)
Definition hexdigit (d : N) : N :=
  if d <? 10 then 0x30 + d else 0x61 + (d - 10).

(** [bytes.hex()] *)
Definition hex (bs : bytes) : str :=
  flat_map (fun b => let n := Byte.to_N b in
                     [hexdigit (n / 16); hexdigit (n mod 16)]) bs.

(** ** The UTF-8 codec

    [bytes.decode("utf-8", errors=...)] as CPython decodes: a malformed
    sequence is reported over the bytes that were consumed before the
    offending one (one byte for a bad start byte), a truncated sequence
    over the rest of the input.  With the [strict] handler the report is a
    [UnicodeDecodeError]; with [ignore] the reported bytes are skipped and
    decoding resumes after them. *)

Inductive ErrorHandler := strict | ignore.

Inductive Decoded :=
  | DecodedStr (s : str)
  | UnicodeDecodeError.

Definition emit (c : N) (k : Decoded) : Decoded :=
  match k with
  | DecodedStr s => DecodedStr (c :: s)
  | UnicodeDecodeError => UnicodeDecodeError
  end.

(** What the error handler does with a bad sequence; [k] decodes what
    follows the skipped bytes. *)
Definition on_error (errors : ErrorHandler) (k : Decoded) : Decoded :=
  match errors with
  | strict => UnicodeDecodeError
  | ignore => k
  end.

Definition is_continuation (b : N) : bool := (0x80 <=? b) && (b <? 0xC0).

Definition low6 (b : N) : N := N.land b 0x3F.

Fixpoint utf8_decode (errors : ErrorHandler) (s : bytes) : Decoded :=
  match s with
  | [] => DecodedStr []
  | b1 :: r1 =>
    let ch := Byte.to_N b1 in
    if ch <? 0x80 then emit ch (utf8_decode errors r1)
    else if ch <? 0xC2 then on_error errors (utf8_decode errors r1)
    else if ch <? 0xE0 then
      match r1 with
      | [] => on_error errors (DecodedStr [])
      | b2 :: r2 =>
        let ch2 := Byte.to_N b2 in
        if negb (is_continuation ch2)
        then on_error errors (utf8_decode errors r1)
        else emit (N.lor (N.shiftl (N.land ch 0x1F) 6) (low6 ch2))
                  (utf8_decode errors r2)
      end
    else if ch <? 0xF0 then
      match r1 with
      | [] => on_error errors (DecodedStr [])
      | b2 :: r2 =>
        let ch2 := Byte.to_N b2 in
        if negb (is_continuation ch2)
           || (if ch2 <? 0xA0 then ch =? 0xE0 else ch =? 0xED)
        then on_error errors (utf8_decode errors r1)
        else
          match r2 with
          | [] => on_error errors (DecodedStr [])
          | b3 :: r3 =>
            let ch3 := Byte.to_N b3 in
            if negb (is_continuation ch3)
            then on_error errors (utf8_decode errors r2)
            else emit (N.lor (N.shiftl (N.land ch 0x0F) 12)
                         (N.lor (N.shiftl (low6 ch2) 6) (low6 ch3)))
                      (utf8_decode errors r3)
          end
      end
    else if ch <? 0xF5 then
      match r1 with
      | [] => on_error errors (DecodedStr [])
      | b2 :: r2 =>
        let ch2 := Byte.to_N b2 in
        if negb (is_continuation ch2)
           || (if ch2 <? 0x90 then ch =? 0xF0 else ch =? 0xF4)
        then on_error errors (utf8_decode errors r1)
        else
          match r2 with
          | [] => on_error errors (DecodedStr [])
          | b3 :: r3 =>
            let ch3 := Byte.to_N b3 in
            if negb (is_continuation ch3)
            then on_error errors (utf8_decode errors r2)
            else
              match r3 with
              | [] => on_error errors (DecodedStr [])
              | b4 :: r4 =>
                let ch4 := Byte.to_N b4 in
                if negb (is_continuation ch4)
                then on_error errors (utf8_decode errors r3)
                else emit (N.lor (N.shiftl (N.land ch 0x07) 18)
                             (N.lor (N.shiftl (low6 ch2) 12)
                                (N.lor (N.shiftl (low6 ch3) 6) (low6 ch4))))
                          (utf8_decode errors r4)
              end
          end
      end
    else on_error errors (utf8_decode errors r1)
  end.

(** [str.encode("utf-8")] of one code point (the probe command is encoded
    before it is written). *)
Definition utf8_encode1 (c : N) : list N :=
  if c <? 0x80 then [c]
  else if c <? 0x800 then [N.lor 0xC0 (N.shiftr c 6); N.lor 0x80 (low6 c)]
  else if c <? 0x10000 then
    [N.lor 0xE0 (N.shiftr c 12); N.lor 0x80 (low6 (N.shiftr c 6));
     N.lor 0x80 (low6 c)]
  else
    [N.lor 0xF0 (N.shiftr c 18); N.lor 0x80 (low6 (N.shiftr c 12));
     N.lor 0x80 (low6 (N.shiftr c 6)); N.lor 0x80 (low6 c)].

(** ** [json.dumps]

    The messages are dictionaries of strings, [None] and (for discovery) a
    list of dictionaries.  [json.dumps] with its defaults: keys in
    insertion order, separators [", "] and [": "], [ensure_ascii]. *)

#[warnings="-register-all"]
Inductive json :=
  | JNone
  | JStr (s : str)
  | JList (items : list json)
  | JDict (items : list (str * json)).

Definition hex4 (n : N) : str :=
  [hexdigit (n / 4096 mod 16); hexdigit (n / 256 mod 16);
   hexdigit (n / 16 mod 16); hexdigit (n mod 16)].

(** The replacement of one character inside a JSON string
    ([py_encode_basestring_ascii]). *)
Definition json_escape (c : N) : str :=
  if c =? 0x22 then lit "\" ++ [0x22]
  else if c =? 0x5C then lit "\\"
  else if c =? 0x0A then lit "\n"
  else if c =? 0x0D then lit "\r"
  else if c =? 0x09 then lit "\t"
  else if c =? 0x08 then lit "\b"
  else if c =? 0x0C then lit "\f"
  else if (0x20 <=? c) && (c <=? 0x7E) then [c]
  else if c <? 0x10000 then lit "\u" ++ hex4 c
  else
    let n := c - 0x10000 in
    lit "\u" ++ hex4 (N.lor 0xD800 (N.land (N.shiftr n 10) 0x3FF))
    ++ lit "\u" ++ hex4 (N.lor 0xDC00 (N.land n 0x3FF)).

Definition json_string (s : str) : str :=
  [0x22] ++ flat_map json_escape s ++ [0x22].

(** [", ".join(parts)] *)
Fixpoint join (sep : str) (parts : list str) : str :=
  match parts with
  | [] => []
  | [p] => p
  | p :: ps => p ++ sep ++ join sep ps
  end.

Fixpoint json_dumps (v : json) : str :=
  match v with
  | JNone => lit "null"
  | JStr s => json_string s
  | JList items =>
    lit "[" ++ join (lit ", ") (map json_dumps items) ++ lit "]"
  | JDict items =>
    lit "{"
    ++ join (lit ", ")
         (map (fun kv => json_string (fst kv) ++ lit ": " ++ json_dumps (snd kv))
              items)
    ++ lit "}"
  end.


(** ** Shell wildcards: [fnmatch]

    [matches] calls the interpreter's [fnmatch.fnmatch].  The program is
    embedded over an arbitrary matcher (the section variable [fnmatch]
    below); [posix_fnmatch] is the matcher of CPython on a POSIX host,
    where [os.path.normcase] is the identity: the pattern is translated
    item by item as [fnmatch.translate] does and has to match the whole
    name. *)

Inductive glob_item :=
  | GStar                                   (* [*]  *)
  | GAny                                    (* [?], and [[!]] with an empty set *)
  | GChar (c : N)                           (* any other character *)
  | GNever                                  (* a set that became empty *)
  | GSet (negated : bool) (chunks : list str).

(** The text up to the first [x], and what follows that [x]. *)
Fixpoint split_at (x : N) (s : str) : option (str * str) :=
  match s with
  | [] => None
  | c :: s' =>
    if c =? x then Some ([], s')
    else match split_at x s' with
         | Some (pre, post) => Some (c :: pre, post)
         | None => None
         end
  end.

(** After a [[]: the body of the set and the rest of the pattern, when a
    closing bracket exists.  A leading [!] and a [\]] right after it belong
    to the body. *)
Definition split_set (rest : str) : option (str * str) :=
  let '(bang, r1) :=
    match rest with
    | 0x21 :: r => ([0x21], r)
    | _ => ([], rest)
    end in
  let '(brak, r2) :=
    match r1 with
    | 0x5D :: r => ([0x5D], r)
    | _ => ([], r1)
    end in
  match split_at 0x5D r2 with
  | Some (body, after) => Some (bang ++ brak ++ body, after)
  | None => None
  end.

(** The body cut at the hyphens that make ranges: a hyphen counts from
    position [skip] of the current chunk on. *)
Fixpoint chunks_of (fuel : nat) (skip : nat) (s : str) : list str :=
  match fuel with
  | O => [s]
  | S fuel' =>
    match split_at 0x2D (drop skip s) with
    | Some (pre, post) => (take skip s ++ pre) :: chunks_of fuel' 2 post
    | None => [s]
    end
  end.

(** A hyphen at the very end is an ordinary character of the chunk before
    it. *)
Fixpoint close_chunks (cs : list str) : list str :=
  match cs with
  | [c; []] => [c ++ [0x2D]]
  | c :: cs' => c :: close_chunks cs'
  | [] => []
  end.

Definition last_char (s : str) : N := List.last s 0.
Definition first_char (s : str) : N := List.hd 0 s.

(** Ranges whose upper bound is below the lower bound are dropped, from the
    right. *)
Fixpoint remove_empty_ranges (cs : list str) : list str :=
  match cs with
  | [] => []
  | c :: cs' =>
    match remove_empty_ranges cs' with
    | [] => [c]
    | d :: ds =>
      if first_char d <? last_char c
      then (removelast c ++ List.tl d) :: ds
      else c :: d :: ds
    end
  end.

Definition set_item (stuff : str) : glob_item :=
  let chunks :=
    if bool_decide (0x2D ∈ stuff)
    then remove_empty_ranges
           (close_chunks
              (chunks_of (length stuff)
                 (match stuff with 0x21 :: _ => 2%nat | _ => 1%nat end) stuff))
    else [stuff] in
  match chunks with
  | [[]] | [] => GNever
  | [[0x21]] => GAny
  | (0x21 :: c) :: cs => GSet true (c :: cs)
  | _ => GSet false chunks
  end.

Fixpoint translate_fuel (fuel : nat) (pat : str) : list glob_item :=
  match fuel with
  | O => []
  | S fuel' =>
    match pat with
    | [] => []
    | c :: rest =>
      if c =? 0x2A then GStar :: translate_fuel fuel' rest
      else if c =? 0x3F then GAny :: translate_fuel fuel' rest
      else if c =? 0x5B then
        match split_set rest with
        | None => GChar c :: translate_fuel fuel' rest
        | Some (stuff, after) => set_item stuff :: translate_fuel fuel' after
        end
      else GChar c :: translate_fuel fuel' rest
    end
  end.

Definition translate (pat : str) : list glob_item :=
  translate_fuel (length pat) pat.

(** Membership in a set: the characters of the chunks, and the ranges from
    the last character of a chunk to the first of the next. *)
Fixpoint in_chunks (c : N) (chunks : list str) : bool :=
  match chunks with
  | [] => false
  | k :: ks =>
    bool_decide (c ∈ k)
    || match ks with
       | [] => false
       | k' :: _ => (last_char k <=? c) && (c <=? first_char k')
       end
    || in_chunks c ks
  end.

Definition item_matches (it : glob_item) (c : N) : bool :=
  match it with
  | GStar | GAny => true
  | GChar c' => c =? c'
  | GNever => false
  | GSet negated chunks => xorb negated (in_chunks c chunks)
  end.

Fixpoint glob_match (items : list glob_item) (s : str) : bool :=
  match items with
  | [] => match s with [] => true | _ :: _ => false end
  | GStar :: items' =>
    (fix star (s : str) : bool :=
       glob_match items' s
       || match s with [] => false | _ :: s' => star s' end) s
  | it :: items' =>
    match s with
    | [] => false
    | c :: s' => item_matches it c && glob_match items' s'
    end
  end.

Definition posix_fnmatch (name pat : str) : bool :=
  glob_match (translate pat) name.

(** ** Exceptions

    The part of the interpreter's exception hierarchy the program meets.
    [asyncio.CancelledError] derives from [BaseException] and not from
    [Exception] (Python 3.8 and later); [Exception msg] stands for an
    instance of any subclass of [Exception], with [msg] its [str()]. *)

Inductive BaseException :=
  | CancelledError
  | KeyboardInterrupt
  | Exception (msg : str).

Definition isinstance_Exception (e : BaseException) : bool :=
  match e with
  | Exception _ => true
  | CancelledError | KeyboardInterrupt => false
  end.

Inductive Res (A : Type) :=
  | Ret (a : A)
  | Raise (e : BaseException).
Arguments Ret {A} a.
Arguments Raise {A} e.

(** Code that reads and writes a state [S] and may raise. *)
Definition M (S A : Type) : Type := S → Res A * S.

#[export] Instance M_ret {S} : MRet (M S) := λ A a s, (Ret a, s).
#[export] Instance M_bind {S} : MBind (M S) := λ A B f m s,
  match m s with
  | (Ret a, s') => f a s'
  | (Raise e, s') => (Raise e, s')
  end.

Definition gets {S A} (f : S → A) : M S A := λ s, (Ret (f s), s).
Definition modify {S} (f : S → S) : M S unit := λ s, (Ret tt, f s).
Definition raise {S A} (e : BaseException) : M S A := λ s, (Raise e, s).
Definition lift {S A} (r : Res A) : M S A := λ s, (r, s).

(** [with contextlib.suppress(Exception): body] *)
Definition suppress_Exception {S} (body : M S unit) : M S unit := λ s,
  match body s with
  | (Raise e, s') =>
    if isinstance_Exception e then (Ret tt, s') else (Raise e, s')
  | r => r
  end.

(** [try: body finally: handler] *)
Definition try_finally {S A} (body : M S A) (handler : M S unit) : M S A := λ s,
  match body s with
  | (r, s') =>
    match handler s' with
    | (Ret _, s'') => (r, s'')
    | (Raise e, s'') => (Raise e, s'')
    end
  end.

(** [for x in xs: body(x)] *)
Fixpoint for_each {S A} (xs : list A) (body : A → M S unit) : M S unit :=
  match xs with
  | [] => mret tt
  | x :: xs' => body x ;; for_each xs' body
  end.

(** ** Settings *)

(** [scan_interval], a float that only sets the length of the sleep, is
    left out. *)
Record Settings := {
  mqtt_broker : str;
  mqtt_username : str;
  mqtt_password : str;
  include_patterns : list str;
  exclude_patterns : list str;
  enable_discovery : bool;
  discovery_prefix : str;
  probe_command : str;
}.

(** ** Ordering of strings and [sorted] *)

(** [s <= t] on [str]: lexicographic on code points. *)
Fixpoint str_leb (s t : str) : bool :=
  match s, t with
  | [], _ => true
  | _ :: _, [] => false
  | a :: s', b :: t' => (a <? b) || ((a =? b) && str_leb s' t')
  end.

Definition str_le (s t : str) : Prop := str_leb s t = true.
Definition str_lt (s t : str) : Prop := str_le s t ∧ s ≠ t.

#[export] Instance str_le_dec s t : Decision (str_le s t).
Proof. unfold str_le. apply _. Defined.

(** [sorted(xs)] for an iterable of strings. *)
Definition sorted (xs : list str) : list str := merge_sort str_le xs.

Section Program.

(** The interpreter's [fnmatch.fnmatch(name, pat)]. *)
Variable fnmatch : str → str → bool.

(** The order in which a [set] (or the keys of a [dict]) is iterated: some
    enumeration of its elements, each once. *)
Variable set_iter : gset str → list str.

(** ** Port enumeration *)

Definition matches (path : str) (patterns : list str) : bool :=
  existsb (fun pat => fnmatch path pat) patterns.

(** [comports] is the outcome of [serial.tools.list_ports.comports()],
    already projected to the [device] of each port. *)
Definition list_candidate_ports (cfg : Settings) (comports : Res (list str))
  : Res (list str) :=
  match comports with
  | Raise e => Raise e
  | Ret ports =>
    let allowed :=
      List.filter (fun p => matches p (include_patterns cfg)
                            && negb (matches p (exclude_patterns cfg))) ports in
    Ret (sorted (set_iter (list_to_set allowed)))
  end.

(** ** The message bus and the clock *)

(** One call of [mqtt.Client.publish]. *)
Record Publish := {
  topic : str;
  payload : str;
  qos : N;
  retain : bool;
}.

(** What the program acts on: the messages handed to the bus client, oldest
    first, the number of readings of the clock so far, and whether the bus
    client is still connected. *)
Record World := {
  bus : list Publish;
  clock : nat;
  connected : bool;
}.

(** [datetime.utcnow().isoformat()] at the n-th reading of the clock. *)
Variable utcnow_isoformat : nat → str.

Definition utcnow : M World str := λ w,
  (Ret (utcnow_isoformat (clock w)),
   {| bus := bus w; clock := S (clock w); connected := connected w |}).

(** [self.mqtt.publish(topic, payload, qos=..., retain=...)]; the call
    hands the message over and returns. *)
Definition mqtt_publish (t p : str) (q : N) (r : bool) : M World unit :=
  modify (λ w, {| bus := bus w ++ [{| topic := t; payload := p; qos := q; retain := r |}];
                  clock := clock w; connected := connected w |}).

(** ** The device reader *)

(** The stream pair [serial_asyncio.open_serial_connection] returns.  What
    the transport will answer to [drain] and [wait_closed] is fixed by the
    host and carried by the writer. *)
Inductive StreamReader := stream_reader.

Record StreamWriter := {
  is_closing : bool;
  written : list bytes;
  drain_error : option BaseException;
  wait_closed_error : option BaseException;
}.

(** The [asyncio.Task] that runs [_read_loop]. *)
Inductive Task :=
  | Pending        (* blocked in [readline] *)
  | Done           (* the coroutine returned or raised *)
  | Cancelled.

Definition done (t : Task) : bool :=
  match t with
  | Pending => false
  | Done | Cancelled => true
  end.

Record SerialReader := {
  device : str;
  topic_prefix : str;
  cfg : Settings;
  reader : option StreamReader;
  writer : option StreamWriter;
  task : option Task;
}.

(** [SerialReader.__init__] *)
Definition SerialReader_init (device : str) (topic_prefix : str) (cfg : Settings)
  : SerialReader :=
  {| device := device; topic_prefix := topic_prefix; cfg := cfg;
     reader := None; writer := None; task := None |}.

Definition set_streams (r : StreamReader) (w : StreamWriter) (self : SerialReader)
  : SerialReader :=
  {| device := device self; topic_prefix := topic_prefix self; cfg := cfg self;
     reader := Some r; writer := Some w; task := task self |}.

Definition set_writer (w : StreamWriter) (self : SerialReader) : SerialReader :=
  {| device := device self; topic_prefix := topic_prefix self; cfg := cfg self;
     reader := reader self; writer := Some w; task := task self |}.

Definition set_task (t : Task) (self : SerialReader) : SerialReader :=
  {| device := device self; topic_prefix := topic_prefix self; cfg := cfg self;
     reader := reader self; writer := writer self; task := Some t |}.

Definition _slug (self : SerialReader) : str :=
  replace 0x5C 0x5F (replace 0x2F 0x5F (device self)).

Definition status_topic (self : SerialReader) : str :=
  lit "multi_serial/" ++ _slug self ++ lit "/status".

Definition data_topic (self : SerialReader) : str :=
  lit "multi_serial/" ++ _slug self ++ lit "/data".

Definition opt_json (o : option str) : json :=
  match o with
  | Some s => JStr s
  | None => JNone
  end.

Definition status_msg (self : SerialReader) (state : str) (error : option str)
    (ts : str) : json :=
  JDict [(lit "device", JStr (device self)); (lit "state", JStr state);
         (lit "error", opt_json error); (lit "ts", JStr ts)].

Definition _publish_status (self : SerialReader) (state : str) (error : option str)
  : M World unit :=
  ts ← utcnow;
  mqtt_publish (status_topic self) (json_dumps (status_msg self state error ts)) 1 true.

Definition discovery_config (self : SerialReader) : json :=
  let node_id := _slug self in
  let unique_id := lit "multi_serial_" ++ node_id in
  JDict [
    (lit "name", JStr (lit "Serial " ++ device self ++ lit " Last"));
    (lit "unique_id", JStr unique_id);
    (lit "state_topic", JStr (lit "multi_serial/" ++ node_id ++ lit "/data"));
    (lit "value_template", JStr (lit "{{ value_json.data }}"));
    (lit "json_attributes_topic", JStr (lit "multi_serial/" ++ node_id ++ lit "/status"));
    (lit "availability",
     JList [JDict [
       (lit "topic", JStr (lit "multi_serial/" ++ node_id ++ lit "/status"));
       (lit "value_template", JStr (lit "{{ value_json.state }}"))]])
  ].

Definition discovery_topic (self : SerialReader) : str :=
  let base := discovery_prefix (cfg self) ++ lit "/sensor/" ++ _slug self ++ lit "/last" in
  base ++ lit "/config".

Definition _ensure_discovery (self : SerialReader) : M World unit :=
  mqtt_publish (discovery_topic self) (json_dumps (discovery_config self)) 1 true.

Definition data_msg (self : SerialReader) (data : str) (ts : str) : json :=
  JDict [(lit "device", JStr (device self)); (lit "data", JStr data);
         (lit "ts", JStr ts)].

Definition _publish (self : SerialReader) (data : str) : M World unit :=
  ts ← utcnow;
  mqtt_publish (data_topic self) (json_dumps (data_msg self data ts)) 0 false;;
  if enable_discovery (cfg self) then _ensure_discovery self else mret tt.

(** The text of a line: the [try] decodes with the [ignore] handler and
    strips, the [except] renders the bytes in hexadecimal. *)
Definition line_payload (line : bytes) : str :=
  match utf8_decode ignore line with
  | DecodedStr s => strip s
  | UnicodeDecodeError => hex line
  end.

(** How a run of the loop over the reads at hand ends. *)
Inductive LoopState :=
  | Awaiting       (* blocked in the next [readline] *)
  | Returned.      (* left by [break] *)

(** [_read_loop]; [reads] are the successive results of
    [await self.reader.readline()], the empty [bytes] being end of
    stream. *)
Fixpoint read_lines (self : SerialReader) (reads : list bytes) : M World LoopState :=
  match reads with
  | [] => mret Awaiting
  | line :: reads' =>
    match line with
    | [] => _publish_status self (lit "disconnected") (Some (lit "eof"));; mret Returned
    | _ :: _ => _publish self (line_payload line);; read_lines self reads'
    end
  end.

Definition _read_loop (self : SerialReader) (reads : list bytes) : M World LoopState :=
  match reader self with
  | None => raise (Exception [])       (* the [assert] *)
  | Some _ => read_lines self reads
  end.

(** [s.encode("utf-8")]: [None] stands for [UnicodeEncodeError] (a lone
    surrogate). *)
Definition utf8_encode (s : str) : option bytes :=
  mapM (λ c, if ((0xD800 <=? c) && (c <=? 0xDFFF)) || (0x10FFFF <? c)
             then None else mapM Byte.of_N (utf8_encode1 c)) s
  ≫= λ bss, Some (concat bss).

Definition write (data : bytes) (w : StreamWriter) : StreamWriter :=
  {| is_closing := is_closing w; written := written w ++ [data];
     drain_error := drain_error w; wait_closed_error := wait_closed_error w |}.

Definition close (w : StreamWriter) : StreamWriter :=
  {| is_closing := true; written := written w;
     drain_error := drain_error w; wait_closed_error := wait_closed_error w |}.

(** The optional probe of [start], with its [except Exception: pass]. *)
Definition probe (self : SerialReader) : Res SerialReader :=
  match probe_command (cfg self), writer self with
  | _ :: _, Some w =>
    match utf8_encode (probe_command (cfg self) ++ [0x0D; 0x0A]) with
    | None => Ret self
    | Some data =>
      let self' := set_writer (write data w) self in
      match drain_error w with
      | None => Ret self'
      | Some e => if isinstance_Exception e then Ret self' else Raise e
      end
    end
  | _, _ => Ret self
  end.

(** [start]; [conn] is the outcome of
    [await serial_asyncio.open_serial_connection(url=self.device, baudrate=9600)].
    The result is [self] as the call leaves it. *)
Definition start (self : SerialReader) (conn : Res (StreamReader * StreamWriter))
  : M World SerialReader :=
  match conn with
  | Raise err =>
    if isinstance_Exception err
    then _publish_status self (lit "error")
           (Some (match err with Exception msg => msg | _ => [] end));;
         mret self
    else raise err
  | Ret (r, w) =>
    let self := set_streams r w self in
    _publish_status self (lit "connected") None;;
    self ← lift (probe self);
    mret (set_task Pending self)
  end.

(** [await self.task] once the task has ended. *)
Definition await_task : M SerialReader unit := λ self,
  match task self with
  | Some Cancelled => (Raise CancelledError, self)
  | _ => (Ret tt, self)
  end.

Definition wait_closed : M SerialReader unit := λ self,
  match writer self ≫= wait_closed_error with
  | Some e => (Raise e, self)
  | None => (Ret tt, self)
  end.

(** [stop], on [self] as state.  The read loop is blocked in [readline]
    and catches nothing there, so [cancel()] ends the task as cancelled. *)
Definition stop : M SerialReader unit :=
  self ← gets id;
  match task self with
  | Some t =>
    if negb (done t)
    then modify (set_task Cancelled);; suppress_Exception await_task
    else mret tt
  | None => mret tt
  end;;
  self ← gets id;
  match writer self with
  | Some w =>
    if negb (is_closing w)
    then modify (set_writer (close w));; suppress_Exception wait_closed
    else mret tt
  | None => mret tt
  end.

(** The event loop running the reader's task over the next reads. *)
Definition run_task (self : SerialReader) (reads : list bytes) : M World SerialReader :=
  match task self with
  | Some Pending => λ w,
    match _read_loop self reads w with
    | (Ret Awaiting, w') => (Ret self, w')
    | (Ret Returned, w') | (Raise _, w') => (Ret (set_task Done self), w')
    end
  | _ => mret self
  end.

(** ** The reconciliation loop *)

(** The calls of the loop on readers, kept for stating in what order they
    happen: [Stop dev] when the reader popped for [dev] is stopped,
    [Create dev] when a reader for [dev] is constructed. *)
Inductive Call :=
  | Stop (dev : str)
  | Create (dev : str).

Record Main := {
  readers : gmap str SerialReader;
  world : World;
  calls : list Call;
}.

Definition set_readers (f : gmap str SerialReader → gmap str SerialReader)
    (s : Main) : Main :=
  {| readers := f (readers s); world := world s; calls := calls s |}.

Definition log (c : Call) : M Main unit :=
  modify (λ s, {| readers := readers s; world := world s; calls := calls s ++ [c] |}).

Definition in_world {A} (m : M World A) : M Main A := λ s,
  match m (world s) with
  | (r, w') => (r, {| readers := readers s; world := w'; calls := calls s |})
  end.

(** What the host answers during one pass of the loop: the port listing,
    the attempt to open each device, and the reads that reach each reader
    during the sleep. *)
Record TickEnv := {
  comports : Res (list str);
  open_serial_connection : str → Res (StreamReader * StreamWriter);
  incoming : str → list bytes;
}.

(** [readers.pop(dev)] *)
Definition pop (dev : str) : M Main SerialReader := λ s,
  match readers s !! dev with
  | Some r => (Ret r, set_readers (delete dev) s)
  | None => (Raise (Exception (lit "'" ++ dev ++ lit "'")), s)    (* KeyError *)
  end.

(** [await r.stop()] on a reader that is no longer in the dictionary. *)
Definition stop_popped (r : SerialReader) : M Main unit := lift (fst (stop r)).

(** A method run on the reader stored under [dev]: the dictionary sees the
    reader as the call leaves it. *)
Definition store (dev : str) (r : SerialReader) : M Main unit :=
  modify (set_readers (insert dev r)).

(** The body of the first [for] of the loop: [await readers.pop(dev).stop()]. *)
Definition stop_removed (dev : str) : M Main unit :=
  r ← pop dev;
  log (Stop dev);;
  stop_popped r.

(** The body of the second [for]. *)
Definition start_new (cfg : Settings) (env : TickEnv) (dev : str) : M Main unit :=
  let reader := SerialReader_init dev (lit "multi_serial") cfg in
  log (Create dev);;
  store dev reader;;
  reader ← in_world (start reader (open_serial_connection env dev));
  store dev reader.

(** One pass of [while True], up to the sleep. *)
Definition tick (cfg : Settings) (env : TickEnv) : M Main unit :=
  ports ← lift (list_candidate_ports cfg (comports env));
  let wanted : gset str := list_to_set ports in
  (* stop removed *)
  rs ← gets readers;
  for_each (set_iter (dom rs ∖ wanted)) stop_removed;;
  (* start new *)
  rs ← gets readers;
  for_each (set_iter (wanted ∖ dom rs)) (start_new cfg env).

(** [await asyncio.sleep(cfg.scan_interval)]: the tasks of the readers
    run. *)
Definition sleep (env : TickEnv) : M Main unit :=
  rs ← gets readers;
  for_each (set_iter (dom rs)) (λ dev,
    match rs !! dev with
    | Some r => r' ← in_world (run_task r (incoming env dev)); store dev r'
    | None => mret tt
    end).

(** The body of [while True], once per element of [envs]. *)
Fixpoint loop (cfg : Settings) (envs : list TickEnv) : M Main unit :=
  match envs with
  | [] => mret tt
  | env :: envs' => tick cfg env;; sleep env;; loop cfg envs'
  end.

(** The [finally] clause of [main_async]. *)
Definition shutdown : M Main unit :=
  rs ← gets readers;
  for_each (set_iter (dom rs)) (λ dev,
    match rs !! dev with
    | Some r => store dev (snd (stop r));; lift (fst (stop r))
    | None => mret tt
    end);;
  in_world (modify (λ w, {| bus := bus w; clock := clock w; connected := false |})).

(** [main_async] from the connected bus client on, over the first
    [length envs] passes of the loop.  [Ret tt] says that the loop is still
    running after them; an exception leaves through [finally]. *)
Definition main_async (cfg : Settings) (envs : list TickEnv) : M Main unit := λ s,
  match loop cfg envs s with
  | (Ret tt, s') => (Ret tt, s')
  | (Raise e, s') => try_finally (raise e) shutdown s'
  end.

Definition initial : Main :=
  {| readers := ∅;
     world := {| bus := []; clock := 0; connected := true |};
     calls := [] |}.

(** The script: [asyncio.run(main_async())] under [except KeyboardInterrupt]. *)
Definition run (cfg : Settings) (envs : list TickEnv) : Res unit * Main :=
  match main_async cfg envs initial with
  | (Raise KeyboardInterrupt, s) => (Ret tt, s)
  | r => r
  end.

End Program.

(** ** Vocabulary of the statements *)

(** The three kinds of message, as the bus client receives them. *)
Definition status_publish (self : SerialReader) (state : str) (error : option str)
    (ts : str) : Publish :=
  {| topic := status_topic self;
     payload := json_dumps (status_msg self state error ts);
     qos := 1; retain := true |}.

Definition data_publish (self : SerialReader) (data : str) (ts : str) : Publish :=
  {| topic := data_topic self;
     payload := json_dumps (data_msg self data ts);
     qos := 0; retain := false |}.

Definition discovery_publish (self : SerialReader) : Publish :=
  {| topic := discovery_topic self;
     payload := json_dumps (discovery_config self);
     qos := 1; retain := true |}.

(** The world after one reading of the clock and the publication of
    [ms]. *)
Definition told (ms : list Publish) (w : World) : World :=
  {| bus := bus w ++ ms; clock := S (clock w); connected := connected w |}.

(** What one line adds to the bus when it is read at time [ts]. *)
Definition line_publishes (self : SerialReader) (data ts : str) : list Publish :=
  data_publish self data ts
  :: (if enable_discovery (cfg self) then [discovery_publish self] else []).

(** The slug as the interface describes it: every path separator becomes
    an underscore. *)
Definition spec_slug (device : str) : str :=
  map (λ c, if (c =? 0x2F) || (c =? 0x5C) then 0x5F else c) device.

(** The text of a line as the specification words it: the UTF-8 decoding
    of the bytes, or the lowercase hexadecimal of the raw bytes when they
    cannot be decoded. *)
Definition spec_line_data (line : bytes) : str :=
  match utf8_decode strict line with
  | DecodedStr s => s
  | UnicodeDecodeError => hex line
  end.

(** The world after the read loop has published the given lines, none of
    them empty. *)
Fixpoint after_lines (utcnow_isoformat : nat → str) (self : SerialReader)
    (lines : list bytes) (w : World) : World :=
  match lines with
  | [] => w
  | line :: lines' =>
    after_lines utcnow_isoformat self lines'
      (told (line_publishes self (line_payload line)
               (utcnow_isoformat (clock w))) w)
  end.

(** An attempt to open [dev] that lets [start] return. *)
Definition start_returns (utcnow_isoformat : nat → str) (cfg : Settings) (env : TickEnv) (dev : str) : Prop :=
  ∀ w, ∃ rd w',
    start utcnow_isoformat (SerialReader_init dev (lit "multi_serial") cfg)
      (open_serial_connection env dev) w = (Ret rd, w').

(** ** A host for the examples *)

Definition ttyUSB0 : str := lit "/dev/ttyUSB0".
Definition ttyUSB1 : str := lit "/dev/ttyUSB1".
Definition ttyS0 : str := lit "/dev/ttyS0".
Definition ttyACM0 : str := lit "/dev/ttyACM0".

Definition ex_cfg : Settings :=
  {| mqtt_broker := lit "mqtt://homeassistant:1883";
     mqtt_username := [];
     mqtt_password := [];
     include_patterns := [lit "/dev/ttyUSB*"];
     exclude_patterns := [lit "/dev/ttyUSB1"];
     enable_discovery := true;
     discovery_prefix := lit "homeassistant";
     probe_command := [] |}.

Definition ex_clock (n : nat) : str :=
  lit "2024-05-01T12:00:0" ++ [0x30 + N.of_nat n].

Definition ex_world : World := {| bus := []; clock := 0; connected := true |}.

Definition ex_writer : StreamWriter :=
  {| is_closing := false; written := [];
     drain_error := None; wait_closed_error := None |}.

(** The host lists three ports and every device opens. *)
Definition ex_env : TickEnv :=
  {| comports := Ret [ttyUSB0; ttyUSB1; ttyS0];
     open_serial_connection := λ _, Ret (stream_reader, ex_writer);
     incoming := λ _, [] |}.

(** The listing fails. *)
Definition ex_env_fail : TickEnv :=
  {| comports := Raise (Exception (lit "OSError"));
     open_serial_connection := λ _, Ret (stream_reader, ex_writer);
     incoming := λ _, [] |}.

(** The host lists no port. *)
Definition ex_env_none : TickEnv :=
  {| comports := Ret [];
     open_serial_connection := λ _, Ret (stream_reader, ex_writer);
     incoming := λ _, [] |}.

(** A reader whose open failed. *)
Definition ex_failed (dev : str) : SerialReader :=
  SerialReader_init dev (lit "multi_serial") ex_cfg.

(** A reader that is connected and reading. *)
Definition ex_reading (dev : str) : SerialReader :=
  {| device := dev; topic_prefix := lit "multi_serial"; cfg := ex_cfg;
     reader := Some stream_reader; writer := Some ex_writer;
     task := Some Pending |}.

(** The loop manages a failed reader for a device that is gone. *)
Definition ex_state : Main :=
  {| readers := {[ ttyACM0 := ex_failed ttyACM0 ]};
     world := ex_world; calls := [] |}.

(** The loop manages a failed reader for a device that is still there. *)
Definition ex_state_failed : Main :=
  {| readers := {[ ttyUSB0 := ex_failed ttyUSB0 ]};
     world := ex_world; calls := [] |}.

(** A pattern without wildcard characters. *)
Definition plain (pat : str) : Prop :=
  Forall (λ c, c ≠ 0x2A ∧ c ≠ 0x3F ∧ c ≠ 0x5B) pat.

(** ** Configuration *)

(** [s.split(sep)] for a one-character separator. *)
Fixpoint split (sep : N) (s : str) : list str :=
  match s with
  | [] => [[]]
  | c :: s' =>
    if c =? sep then [] :: split sep s'
    else match split sep s' with
         | p :: ps => (c :: p) :: ps
         | [] => [[c]]
         end
  end.

(** [_split_csv]: the stripped pieces between commas, the empty ones left
    out. *)
Definition _split_csv (value : str) : list str :=
  omap (λ p, match strip p with [] => None | _ :: _ => Some (strip p) end)
       (split 0x2C value).

(** [_env]; [environ] is the process environment that [os.getenv] reads. *)
Definition _env (environ : gmap str str) (name default : str) : str :=
  match environ !! name with
  | None => default
  | Some val => val
  end.

Section Configuration.

(** The interpreter's [float(s)], which raises [ValueError] on text that is
    no number, and its [str.lower()]. *)
Context {float : Type} (float_of_str : str → Res float) (lower : str → str).

(** [load_settings].  The keyword arguments are evaluated in order, and
    only [float] can raise.  [scan_interval], which [Settings] leaves out,
    is returned beside the record. *)
Definition load_settings (environ : gmap str str) : Res (float * Settings) :=
  let mqtt_broker := _env environ (lit "MQTT_BROKER") (lit "mqtt://homeassistant:1883") in
  let mqtt_username := _env environ (lit "MQTT_USERNAME") [] in
  let mqtt_password := _env environ (lit "MQTT_PASSWORD") [] in
  match float_of_str (_env environ (lit "SCAN_INTERVAL") (lit "1.0")) with
  | Raise e => Raise e
  | Ret scan_interval =>
    Ret (scan_interval,
         {| mqtt_broker := mqtt_broker;
            mqtt_username := mqtt_username;
            mqtt_password := mqtt_password;
            include_patterns :=
              _split_csv (_env environ (lit "INCLUDE_PATTERNS")
                            (lit "/dev/ttyUSB*,/dev/ttyACM*"));
            exclude_patterns :=
              _split_csv (_env environ (lit "EXCLUDE_PATTERNS")
                            (lit "/dev/ttyS*,/dev/input*,/dev/hidraw*"));
            enable_discovery :=
              bool_decide (lower (_env environ (lit "ENABLE_DISCOVERY") (lit "true"))
                           = lit "true");
            discovery_prefix := _env environ (lit "DISCOVERY_PREFIX") (lit "homeassistant");
            probe_command := _env environ (lit "PROBE_COMMAND") [] |})
  end.

End Configuration.

(** A piece that [_split_csv] returns unchanged: not empty, no white space
    at either end, no comma. *)
Definition clean (p : str) : Prop :=
  p ≠ [] ∧ strip p = p ∧ 0x2C ∉ p.


(** The reads that come before the end of the stream. *)
Fixpoint lines_before_eof (reads : list bytes) : list bytes :=
  match reads with
  | [] => []
  | [] :: _ => []
  | line :: reads' => line :: lines_before_eof reads'
  end.

(** What [start] hands to the writer: the probe command and CR LF, encoded,
    when a probe command is configured and can be encoded. *)
Definition probe_data (cfg : Settings) : list bytes :=
  match probe_command cfg with
  | [] => []
  | _ :: _ =>
    match utf8_encode (probe_command cfg ++ [0x0D; 0x0A]) with
    | Some data => [data]
    | None => []
    end
  end.

(** A printable ASCII character. *)
Definition printable (c : N) : Prop := 0x20 ≤ c ≤ 0x7E.

(** An ASCII byte. *)
Definition ascii_byte (b : byte) : Prop := Byte.to_N b < 0x80.


(** Every managed reader is filed under its own device path and carries
    the settings and the topic prefix the loop gave it. *)
Definition well_filed (settings : Settings) (s : Main) : Prop :=
  ∀ d r, readers s !! d = Some r →
         device r = d ∧ cfg r = settings ∧ topic_prefix r = lit "multi_serial".

(** A monadic action keeps a property of the state, however it ends. *)
Definition preserves {S A} (I : S → Prop) (m : M S A) : Prop :=
  ∀ s, I s → I (m s).2.



(** ** The demonstration harness ([phase1_comprehensive_test.py]) *)

Inductive DeviceType :=
  | UNKNOWN
  | BLE
  | ZIGBEE
  | ZWAVE
  | MATTER
  | CUSTOM.

(** A [bytes] literal. *)
Definition blit (s : string) : bytes :=
  map byte_of_ascii (list_ascii_of_string s).

(** [bytes.upper()] and [bytes.lower()] change the ASCII letters only. *)
Definition upper_byte (b : byte) : byte :=
  let n := Byte.to_N b in
  if (0x61 <=? n) && (n <=? 0x7A) then default b (Byte.of_N (n - 0x20)) else b.

Definition lower_byte (b : byte) : byte :=
  let n := Byte.to_N b in
  if (0x41 <=? n) && (n <=? 0x5A) then default b (Byte.of_N (n + 0x20)) else b.

Definition upper (s : bytes) : bytes := map upper_byte s.
Definition lower (s : bytes) : bytes := map lower_byte s.

Fixpoint starts_with (needle hay : bytes) : bool :=
  match needle, hay with
  | [], _ => true
  | _ :: _, [] => false
  | a :: needle', b :: hay' => Byte.eqb a b && starts_with needle' hay'
  end.

(** [needle in hay] *)
Fixpoint contains (needle hay : bytes) : bool :=
  starts_with needle hay
  || match hay with
     | [] => false
     | _ :: hay' => contains needle hay'
     end.

(** The dictionary [patterns] of [_detect_device_type_from_response], in
    the order of its literal. *)
Definition device_patterns : list (DeviceType * list bytes) :=
  [(BLE, [blit "BLE"; blit "BLUETOOTH"; blit "BT_"]);
   (ZIGBEE, [blit "ZIGBEE"; blit "ZIG"; blit "COORDINATOR"; blit "ZHA_"]);
   (ZWAVE, [blit "ZWAVE"; blit "ZW_"; blit "CONTROLLER"; blit "ZW_"]);
   (MATTER, [blit "MATTER"; blit "FABRIC"; blit "MT_"; blit "MATTER_"])].

(** The two nested [for] loops, which return at the first pattern found. *)
Fixpoint detect_in (patterns : list (DeviceType * list bytes)) (response_str : bytes)
  : DeviceType :=
  match patterns with
  | [] => UNKNOWN
  | (device_type, device_patterns) :: patterns' =>
    if existsb (λ pattern, contains (upper pattern) response_str) device_patterns
    then device_type
    else detect_in patterns' response_str
  end.

Definition _detect_device_type_from_response (response : bytes) : DeviceType :=
  let response_str := upper response in
  detect_in device_patterns response_str.

(** [d[k]] and [k in d] for a dictionary given by its items. *)
Definition dict_get {A} (k : str) (d : list (str * A)) : option A :=
  snd <$> List.find (λ kv, bool_decide (kv.1 = k)) d.

Definition dict_has {A} (k : str) (d : list (str * A)) : bool :=
  bool_decide (k ∈ map fst d).

Definition required_fields : list (str * list str) :=
  [(lit "discovery",
    [lit "device_path"; lit "device_type"; lit "fingerprint"; lit "capabilities";
     lit "discovered_at"]);
   (lit "status", [lit "device"; lit "state"; lit "ts"]);
   (lit "data", [lit "device"; lit "data"; lit "ts"])].

Definition _validate_message_format (message : list (str * json)) (message_type : str)
  : bool :=
  match dict_get message_type required_fields with
  | None => false
  | Some fields => forallb (λ field, dict_has field message) fields
  end.

(** The items of a dictionary. *)
Definition dict_items (v : json) : list (str * json) :=
  match v with
  | JDict items => items
  | _ => []
  end.

(** What the harness reads of a listed port. *)
Record ListPortInfo := {
  port_device : str;
  port_description : str;
}.

(** [_filter_ports]; its inner [matches] is that of the add-on. *)
Definition _filter_ports (fnmatch : str → str → bool) (ports : list ListPortInfo)
    (include_patterns exclude_patterns : list str) : list ListPortInfo :=
  List.filter (λ port, matches fnmatch (port_device port) include_patterns
                       && negb (matches fnmatch (port_device port) exclude_patterns))
              ports.


(** The upper-cased response holds the pattern. *)
Definition holds (response : bytes) (pattern : string) : bool :=
  contains (blit pattern) (upper response).


(** * Properties *)

(** ** The order on strings *)

Lemma str_leb_refl s : str_leb s s = true.
Proof.
induction s as [|a s IH]; simpl; [done|].
rewrite N.eqb_refl, IH. apply orb_true_r.
Qed.

Lemma str_leb_cons a s b t :
  str_leb (a :: s) (b :: t) = true ↔ (a < b)%N ∨ (a = b ∧ str_leb s t = true).
Proof.
simpl. rewrite orb_true_iff, andb_true_iff, N.ltb_lt, N.eqb_eq. tauto.
Qed.

#[export] Instance str_le_total : Total str_le.
Proof.
intros s. unfold str_le.
induction s as [|a s IH]; intros [|b t]; [by left | by left | by right |].
rewrite !str_leb_cons.
destruct (N.lt_trichotomy a b) as [?|[->|?]]; auto.
destruct (IH t); auto.
Qed.

#[export] Instance str_le_trans : Transitive str_le.
Proof.
intros s. unfold str_le.
induction s as [|a s IH]; intros [|b t] [|c u]; try done.
rewrite !str_leb_cons. intros [?|[-> ?]] [?|[-> ?]]; eauto with lia.
Qed.

#[export] Instance str_le_antisym : AntiSymm (=) str_le.
Proof.
intros s. unfold str_le.
induction s as [|a s IH]; intros [|b t]; try done.
rewrite !str_leb_cons. intros [?|[-> ?]] [?|[? ?]]; try lia.
f_equal. by apply IH.
Qed.

Lemma StronglySorted_strict (l : list str) :
  StronglySorted str_le l → NoDup l → StronglySorted str_lt l.
Proof.
induction 1 as [|x l Hl IH Hx]; intros Hnd; [constructor|].
apply NoDup_cons in Hnd as [Hx' Hnd].
constructor; [by apply IH|].
apply Forall_forall. intros y Hy. split.
- eapply Forall_forall in Hx; eauto.
- intros ->. done.
Qed.

Lemma sorted_spec (xs : list str) :
  StronglySorted str_le (sorted xs) ∧ sorted xs ≡ₚ xs.
Proof.
split; [apply StronglySorted_merge_sort; apply _ | apply merge_sort_Permutation].
Qed.

(** Sorting forgets the order of what it is given. *)
Lemma sorted_permutation (xs ys : list str) : xs ≡ₚ ys → sorted xs = sorted ys.
Proof.
intros Hp. apply (Sorted_unique str_le).
- apply Sorted_merge_sort; apply _.
- apply Sorted_merge_sort; apply _.
- by rewrite !(proj2 (sorted_spec _)).
Qed.

(** ** The matcher of a POSIX host *)

Lemma translate_fuel_plain pat fuel :
  plain pat → (length pat ≤ fuel)%nat → translate_fuel fuel pat = map GChar pat.
Proof.
intros Hp. revert fuel. induction Hp as [|c pat (H1 & H2 & H3) _ IH]; intros fuel Hf.
- by destruct fuel.
- destruct fuel as [|fuel]; [simpl in Hf; lia|]. cbn [translate_fuel map].
  apply N.eqb_neq in H1, H2, H3. rewrite H1, H2, H3. f_equal. apply IH.
  simpl in Hf. lia.
Qed.

Lemma translate_fuel_plain_star pre fuel :
  plain pre → (length pre < fuel)%nat →
  translate_fuel fuel (pre ++ lit "*") = map GChar pre ++ [GStar].
Proof.
intros Hp. revert fuel. induction Hp as [|c pat (H1 & H2 & H3) _ IH]; intros fuel Hf.
- destruct fuel as [|[|fuel]]; [simpl in Hf; lia|done|done].
- destruct fuel as [|fuel]; [simpl in Hf; lia|].
  rewrite <- app_comm_cons. cbn [translate_fuel map app].
  apply N.eqb_neq in H1, H2, H3. rewrite H1, H2, H3. f_equal. apply IH.
  simpl in Hf. lia.
Qed.

Lemma glob_match_chars pat items name :
  glob_match (map GChar pat ++ items) name = true
  ↔ ∃ rest, name = pat ++ rest ∧ glob_match items rest = true.
Proof.
revert name. induction pat as [|c pat IH]; intros name.
- cbn [map app]. split; [by exists name | by intros (rest & -> & ?)].
- cbn [map app glob_match]. destruct name as [|c' name].
  + split; [done | by intros (rest & ? & _)].
  + cbn [item_matches]. rewrite andb_true_iff, N.eqb_eq, IH. split.
    * intros (-> & rest & -> & Hr). by exists rest.
    * intros (rest & Heq & Hr). simplify_eq/=. eauto.
Qed.

Lemma glob_match_star name : glob_match [GStar] name = true.
Proof.
induction name as [|c name IH]; [done|].
cbn [glob_match] in *. by rewrite IH, orb_true_r.
Qed.

(** A pattern without wildcards matches its own text only: the whole name
    is compared, character by character. *)
Lemma posix_fnmatch_plain name pat :
  plain pat → posix_fnmatch name pat = true ↔ name = pat.
Proof.
intros Hp. unfold posix_fnmatch, translate.
rewrite (translate_fuel_plain _ _ Hp) by done.
rewrite <- (app_nil_r (map GChar pat)), glob_match_chars. split.
- intros (rest & -> & Hr). destruct rest; [by rewrite app_nil_r | done].
- intros ->. exists []. by rewrite app_nil_r.
Qed.

(** A trailing star matches any rest of the name, separators included. *)
Lemma posix_fnmatch_prefix name pre :
  plain pre → posix_fnmatch name (pre ++ lit "*") = true ↔ ∃ rest, name = pre ++ rest.
Proof.
intros Hp. unfold posix_fnmatch, translate.
rewrite (translate_fuel_plain_star _ _ Hp) by (rewrite length_app; simpl; lia).
rewrite glob_match_chars. split.
- intros (rest & -> & _). by exists rest.
- intros (rest & ->). exists rest. split; [done | apply glob_match_star].
Qed.

(** ** Port enumeration *)

Section Enumeration.

Context (fnmatch : str → str → bool) (set_iter : gset str → list str).
Hypothesis set_iter_perm : ∀ X, set_iter X ≡ₚ elements X.

Lemma matches_spec path patterns :
  matches fnmatch path patterns = true
  ↔ ∃ pat, pat ∈ patterns ∧ fnmatch path pat = true.
Proof.
unfold matches. rewrite existsb_exists.
split; intros (pat & H1 & H2); exists pat; split; auto; by apply list_elem_of_In.
Qed.

Lemma matches_false path patterns :
  matches fnmatch path patterns = false
  ↔ ∀ pat, pat ∈ patterns → fnmatch path pat = false.
Proof.
rewrite <- not_true_iff_false, matches_spec. split.
- intros H pat Hp. apply not_true_iff_false. intros Hm. apply H. eauto.
- intros H (pat & Hp & Hm). rewrite (H pat Hp) in Hm. done.
Qed.

(** The candidates form the set of the listed ports that pass the filter. *)
Lemma list_candidate_ports_elem cfg ports :
  ∃ l, list_candidate_ports fnmatch set_iter cfg (Ret ports) = Ret l
       ∧ ∀ p, p ∈ l ↔ p ∈ ports
                      ∧ matches fnmatch p (include_patterns cfg) = true
                      ∧ matches fnmatch p (exclude_patterns cfg) = false.
Proof.
eexists. split; [reflexivity|]. intros p.
rewrite (proj2 (sorted_spec _)), set_iter_perm, elem_of_elements, elem_of_list_to_set.
rewrite list_elem_of_In, filter_In, andb_true_iff, negb_true_iff, <- list_elem_of_In.
tauto.
Qed.

(** C4: a listed device path is a candidate exactly when some include
    pattern matches it and no exclude pattern does; nothing that the host
    does not list is a candidate.  The matcher is the interpreter's
    [fnmatch], whatever it computes. *)
Theorem C4_candidate_iff_filter cfg ports :
  ∃ l, list_candidate_ports fnmatch set_iter cfg (Ret ports) = Ret l
       ∧ ∀ p, p ∈ l ↔
              p ∈ ports
              ∧ (∃ pat, pat ∈ include_patterns cfg ∧ fnmatch p pat = true)
              ∧ (∀ pat, pat ∈ exclude_patterns cfg → fnmatch p pat = false).
Proof.
destruct (list_candidate_ports_elem cfg ports) as (l & Hl & Hspec).
exists l. split; [done|]. intros p.
by rewrite Hspec, matches_spec, matches_false.
Qed.

(** C10: the candidate list is strictly ascending, so sorted and free of
    duplicates, however often the host lists a path; and it depends on the
    set of listed ports only, not on their order or multiplicity. *)
Theorem C10_candidates_sorted_nodup cfg ports :
  ∃ l, list_candidate_ports fnmatch set_iter cfg (Ret ports) = Ret l
       ∧ StronglySorted str_lt l
       ∧ NoDup l
       ∧ ∀ ports', (∀ p, p ∈ ports ↔ p ∈ ports') →
                   list_candidate_ports fnmatch set_iter cfg (Ret ports') = Ret l.
Proof.
eexists. split; [reflexivity|].
assert (NoDup (sorted (set_iter (list_to_set
          (List.filter (λ p, matches fnmatch p (include_patterns cfg)
                             && negb (matches fnmatch p (exclude_patterns cfg)))
             ports))))) as Hnd.
{ rewrite (proj2 (sorted_spec _)), set_iter_perm. apply NoDup_elements. }
split; [|split; [done|]].
- apply StronglySorted_strict; [apply sorted_spec | done].
- intros ports' Heq. simpl. f_equal. apply sorted_permutation.
  rewrite !set_iter_perm. f_equiv.
  intros p. rewrite !elem_of_list_to_set.
  rewrite !list_elem_of_In, !filter_In, <- !list_elem_of_In. by rewrite Heq.
Qed.

End Enumeration.


(** ** The codec *)

Lemma emit_total c k : (∃ s, k = DecodedStr s) → ∃ s, emit c k = DecodedStr s.
Proof. intros [s ->]. by eexists. Qed.

Lemma utf8_decode_ignore_total (line : bytes) :
  ∃ s, utf8_decode ignore line = DecodedStr s.
Proof.
remember (length line) as n eqn:Hn.
revert line Hn. induction (lt_wf n) as [n _ IH]. intros line ->.
assert (∀ t, (length t < length line)%nat → ∃ s, utf8_decode ignore t = DecodedStr s)
  as IH' by (intros t Ht; by eapply IH).
clear IH.
destruct line as [|b1 r1]; [by eexists|].
cbn [utf8_decode on_error].
repeat case_match; subst; try apply emit_total;
  first [apply IH'; cbn [length]; lia | by eexists].
Qed.

Lemma utf8_decode_strict_ignore (line : bytes) s :
  utf8_decode strict line = DecodedStr s → utf8_decode ignore line = DecodedStr s.
Proof.
remember (length line) as n eqn:Hn.
revert line s Hn. induction (lt_wf n) as [n _ IH]. intros line s ->.
assert (∀ c t s', (length t < length line)%nat →
          emit c (utf8_decode strict t) = DecodedStr s' →
          emit c (utf8_decode ignore t) = DecodedStr s') as IHe.
{ intros c t s' Ht. destruct (utf8_decode strict t) eqn:E; [|done].
  by rewrite (IH _ Ht _ _ eq_refl E). }
clear IH.
destruct line as [|b1 r1]; [done|].
cbn [utf8_decode on_error].
repeat case_match; subst; try done; apply IHe; cbn [length]; lia.
Qed.

(** ** The device reader *)

Section Reader.

Context (utcnow_isoformat : nat → str).

Local Abbreviation now w := (utcnow_isoformat (clock w)).

Lemma _slug_spec self : _slug self = spec_slug (device self).
Proof.
unfold _slug, spec_slug, replace. rewrite map_map. apply map_ext. intros c.
destruct (N.eqb_spec c 0x2F) as [->|]; [done|]. by destruct (c =? 0x5C).
Qed.

Lemma _publish_status_eq self state error w :
  _publish_status utcnow_isoformat self state error w
  = (Ret tt, told [status_publish self state error (now w)] w).
Proof. done. Qed.

Lemma _ensure_discovery_eq self w :
  _ensure_discovery self w
  = (Ret tt, {| bus := bus w ++ [discovery_publish self];
                clock := clock w; connected := connected w |}).
Proof. done. Qed.

Lemma _publish_eq self data w :
  _publish utcnow_isoformat self data w
  = (Ret tt, told (line_publishes self data (now w)) w).
Proof.
unfold _publish, line_publishes, told, mbind, M_bind, utcnow, mqtt_publish, modify.
simpl. destruct (enable_discovery (cfg self)); simpl.
- rewrite _ensure_discovery_eq. simpl. by rewrite <- app_assoc.
- done.
Qed.

(** C8: a status message goes to [multi_serial/<slug>/status] with QoS 1
    and retained, a data message to [multi_serial/<slug>/data] with QoS 0
    and not retained, a discovery descriptor to
    [<discovery_prefix>/sensor/<slug>/last/config] with QoS 1 and retained;
    the slug is the device path with [/] and [\] replaced by [_].  These
    three are the only calls of [publish], and each adds just the messages
    named here. *)
Theorem C8_topics_qos_retain self state error data w :
  let slug := spec_slug (device self) in
  let m_status :=
    {| topic := lit "multi_serial/" ++ slug ++ lit "/status";
       payload := json_dumps (status_msg self state error (now w));
       qos := 1; retain := true |} in
  let m_data :=
    {| topic := lit "multi_serial/" ++ slug ++ lit "/data";
       payload := json_dumps (data_msg self data (now w));
       qos := 0; retain := false |} in
  let m_descriptor :=
    {| topic := discovery_prefix (cfg self) ++ lit "/sensor/" ++ slug
                ++ lit "/last/config";
       payload := json_dumps (discovery_config self);
       qos := 1; retain := true |} in
  bus (_publish_status utcnow_isoformat self state error w).2 = bus w ++ [m_status]
  ∧ bus (_publish utcnow_isoformat self data w).2
    = bus w ++ m_data :: (if enable_discovery (cfg self) then [m_descriptor] else [])
  ∧ bus (_ensure_discovery self w).2 = bus w ++ [m_descriptor].
Proof.
intros slug m_status m_data m_descriptor.
assert (discovery_publish self = m_descriptor) as Hd.
{ unfold discovery_publish, m_descriptor, discovery_topic, slug.
  rewrite _slug_spec. f_equal. by rewrite <- !app_assoc. }
rewrite _publish_status_eq, _publish_eq, _ensure_discovery_eq.
unfold line_publishes. rewrite Hd. cbn [snd bus told].
unfold m_status, m_data, status_publish, data_publish, status_topic, data_topic, slug.
by rewrite _slug_spec.
Qed.

(** C9: the descriptor is a function of the device path and the discovery
    prefix alone: two readers that agree on both publish the same message,
    whatever the time, the bus and the rest of their state and settings.
    It names the device path, derives its unique id from the slug, takes
    the data topic as state topic with a template on [data], and the status
    topic as availability topic with a template on [state]. *)
Theorem C9_discovery_deterministic self1 self2 w1 w2 :
  device self1 = device self2 →
  discovery_prefix (cfg self1) = discovery_prefix (cfg self2) →
  (∃ m, (_ensure_discovery self1 w1).2 =
          {| bus := bus w1 ++ [m]; clock := clock w1; connected := connected w1 |}
        ∧ (_ensure_discovery self2 w2).2 =
          {| bus := bus w2 ++ [m]; clock := clock w2; connected := connected w2 |}
        ∧ topic m = discovery_prefix (cfg self1) ++ lit "/sensor/"
                    ++ spec_slug (device self1) ++ lit "/last/config"
        ∧ payload m = json_dumps (discovery_config self1))
  ∧ discovery_config self1 =
    JDict [
      (lit "name", JStr (lit "Serial " ++ device self1 ++ lit " Last"));
      (lit "unique_id", JStr (lit "multi_serial_" ++ spec_slug (device self1)));
      (lit "state_topic", JStr (data_topic self1));
      (lit "value_template", JStr (lit "{{ value_json.data }}"));
      (lit "json_attributes_topic", JStr (status_topic self1));
      (lit "availability",
       JList [JDict [(lit "topic", JStr (status_topic self1));
                     (lit "value_template", JStr (lit "{{ value_json.state }}"))]])
    ].
Proof.
intros Hdev Hpre. split.
- exists (discovery_publish self1). rewrite !_ensure_discovery_eq. cbn [snd].
  assert (discovery_publish self2 = discovery_publish self1) as ->.
  { unfold discovery_publish, discovery_topic, discovery_config, _slug.
    by rewrite Hdev, Hpre. }
  repeat split. unfold discovery_publish, discovery_topic. cbn [topic].
  by rewrite _slug_spec, <- !app_assoc.
- unfold discovery_config, data_topic, status_topic. by rewrite _slug_spec.
Qed.

(** With the [ignore] handler the [except] branch of the read loop is never
    taken: the text of a line is its decoding, stripped. *)
Lemma line_payload_spec line :
  ∃ s, utf8_decode ignore line = DecodedStr s ∧ line_payload line = strip s.
Proof.
destruct (utf8_decode_ignore_total line) as [s Hs].
exists s. unfold line_payload. by rewrite Hs.
Qed.

Lemma read_lines_line self b line reads w :
  read_lines utcnow_isoformat self ((b :: line) :: reads) w
  = read_lines utcnow_isoformat self reads
      (told (line_publishes self (line_payload (b :: line)) (now w)) w).
Proof.
cbn [read_lines]. unfold mbind at 1, M_bind at 1. by rewrite _publish_eq.
Qed.

Lemma read_lines_eof self reads w :
  read_lines utcnow_isoformat self ([] :: reads) w
  = (Ret Returned,
     told [status_publish self (lit "disconnected") (Some (lit "eof")) (now w)] w).
Proof. done. Qed.

(** C1, as the code has it: every line that is read adds exactly one data
    message to the bus (followed by the descriptor when discovery is on),
    and the loop goes on with the next read.  Its [data] is the UTF-8
    decoding of the line with the undecodable bytes left out and white
    space stripped from both ends; for a line that is valid UTF-8 this is
    the stripped decoding.  The hexadecimal rendering is never chosen. *)
Theorem C1_line_yields_one_data_message self r line reads w :
  reader self = Some r →
  line ≠ [] →
  ∃ s, utf8_decode ignore line = DecodedStr s
       ∧ (∀ s', utf8_decode strict line = DecodedStr s' → s' = s)
       ∧ _read_loop utcnow_isoformat self (line :: reads) w
         = _read_loop utcnow_isoformat self reads
             (told (data_publish self (strip s) (now w)
                    :: (if enable_discovery (cfg self)
                        then [discovery_publish self] else [])) w).
Proof.
intros Hr Hline.
destruct (line_payload_spec line) as (s & Hs & Hp).
exists s. split; [done|]. split.
- intros s' Hs'. apply utf8_decode_strict_ignore in Hs'. congruence.
- unfold _read_loop. rewrite Hr.
  destruct line as [|b line]; [done|].
  by rewrite read_lines_line, Hp.
Qed.

Lemma read_lines_app self lines rest w :
  Forall (λ line, line ≠ []) lines →
  read_lines utcnow_isoformat self (lines ++ rest) w
  = read_lines utcnow_isoformat self rest (after_lines utcnow_isoformat self lines w).
Proof.
intros Hl. revert w. induction Hl as [|line lines Hne _ IH]; intros w; [done|].
destruct line as [|b line]; [done|].
rewrite <- app_comm_cons, read_lines_line. apply IH.
Qed.

(** The lines before the end of the stream add no status message. *)
Lemma after_lines_no_status self lines w :
  ∃ ms, bus (after_lines utcnow_isoformat self lines w) = bus w ++ ms
        ∧ Forall (λ m, topic m ≠ status_topic self) ms.
Proof.
revert w. induction lines as [|line lines IH]; intros w.
- exists []. by rewrite app_nil_r.
- destruct (IH (told (line_publishes self (line_payload line) (now w)) w))
    as (ms & Hms & Hall).
  eexists (_ ++ ms). cbn [after_lines]. rewrite Hms. cbn [told bus].
  rewrite <- app_assoc. split; [done|].
  apply Forall_app. split; [|done].
  assert (∀ a b : str, a ++ lit "/data" ≠ b ++ lit "/status") as Hdata.
  { intros a b Heq. apply (f_equal last) in Heq. rewrite !last_app in Heq. done. }
  assert (∀ a b : str, a ++ lit "/config" ≠ b ++ lit "/status") as Hconf.
  { intros a b Heq. apply (f_equal last) in Heq. rewrite !last_app in Heq. done. }
  unfold line_publishes.
  assert (topic (data_publish self (line_payload line) (now w)) ≠ status_topic self).
  { unfold data_publish, data_topic, status_topic. cbn [topic].
    rewrite !(app_assoc (lit "multi_serial/")). apply Hdata. }
  destruct (enable_discovery (cfg self)); repeat constructor; try done.
  unfold discovery_publish, discovery_topic, status_topic. cbn [topic].
  rewrite !(app_assoc (lit "multi_serial/")). apply Hconf.
Qed.

(** C6: on end of stream the read loop publishes one status message,
    [disconnected] with error [eof] (QoS 1, retained), and returns; the
    lines read before it added no status message.  The task is then done:
    whatever arrives later, the reader publishes nothing more and does not
    start again. *)
Theorem C6_eof_is_terminal self r lines rest w :
  reader self = Some r →
  task self = Some Pending →
  Forall (λ line, line ≠ []) lines →
  let w1 := after_lines utcnow_isoformat self lines w in
  let eof :=
    {| topic := status_topic self;
       payload := json_dumps (status_msg self (lit "disconnected")
                                (Some (lit "eof")) (now w1));
       qos := 1; retain := true |} in
  _read_loop utcnow_isoformat self (lines ++ [] :: rest) w = (Ret Returned, told [eof] w1)
  ∧ run_task utcnow_isoformat self (lines ++ [] :: rest) w
    = (Ret (set_task Done self), told [eof] w1)
  ∧ (∃ ms, bus (told [eof] w1) = bus w ++ ms ++ [eof]
           ∧ Forall (λ m, topic m ≠ status_topic self) ms)
  ∧ (∀ reads w', run_task utcnow_isoformat (set_task Done self) reads w'
                 = (Ret (set_task Done self), w')).
Proof.
intros Hr Ht Hl w1 eof.
assert (_read_loop utcnow_isoformat self (lines ++ [] :: rest) w
        = (Ret Returned, told [eof] w1)) as Hloop.
{ unfold _read_loop. rewrite Hr, read_lines_app by done. apply read_lines_eof. }
split; [done|]. split; [|split].
- unfold run_task. by rewrite Ht, Hloop.
- destruct (after_lines_no_status self lines w) as (ms & Hms & Hall).
  exists ms. split; [|done]. subst eof w1. cbn [told bus]. by rewrite Hms, <- app_assoc.
- done.
Qed.

(** [stop()] on a reader that has no task and no connection does nothing. *)
Lemma stop_never_connected self :
  task self = None → writer self = None → stop self = (Ret tt, self).
Proof.
destruct self as [d p c r wr t]. simpl. by intros -> ->.
Qed.

(** Whenever [stop()] returns, the task has ended and the connection is
    closing, and a second call does nothing. *)
Lemma stop_returns_idempotent self self' :
  stop self = (Ret tt, self') →
  (∀ t, task self' = Some t → done t = true)
  ∧ (∀ wr, writer self' = Some wr → is_closing wr = true)
  ∧ stop self' = (Ret tt, self').
Proof.
destruct self as [d p c r [[[] wn de [e|]]|] [[]|]]; try destruct e;
  cbv -[N.ltb]; intros; simplify_eq/=.
all: repeat split; intros; by simplify_eq.
Qed.

(** C7, where it fails: [stop()] on a reader whose read task is still
    blocked in [readline] raises.  Awaiting the cancelled task raises
    [CancelledError], which [suppress(Exception)] lets through; the writer
    is not closed. *)
Theorem C7_stop_raises_on_live_task self :
  stop (set_task Pending self) = (Raise CancelledError, set_task Cancelled self).
Proof. by destruct self. Qed.

End Reader.

(** ** The reconciliation loop *)

Section Loop.

Context (fnmatch : str → str → bool) (set_iter : gset str → list str).
Context (utcnow_isoformat : nat → str).
Hypothesis set_iter_perm : ∀ X, set_iter X ≡ₚ elements X.

Lemma set_iter_elem X d : d ∈ set_iter X ↔ d ∈ X.
Proof. by rewrite set_iter_perm, elem_of_elements. Qed.

Lemma set_iter_NoDup X : NoDup (set_iter X).
Proof. rewrite set_iter_perm. apply NoDup_elements. Qed.

Lemma set_iter_empty : set_iter ∅ = [].
Proof. apply Permutation_nil_r. by rewrite set_iter_perm, elements_empty. Qed.

Lemma tick_unfold cfg env ports s :
  list_candidate_ports fnmatch set_iter cfg (comports env) = Ret ports →
  tick fnmatch set_iter utcnow_isoformat cfg env s
  = (for_each (set_iter (dom (readers s) ∖ list_to_set ports)) stop_removed;;
     rs ← gets readers;
     for_each (set_iter (list_to_set ports ∖ dom rs))
       (start_new utcnow_isoformat cfg env)) s.
Proof.
intros Hp. unfold tick. unfold mbind at 1, M_bind at 1, lift at 1. by rewrite Hp.
Qed.

(** The first loop stops the devices of its list in order, each after it
    has been taken out of the dictionary, and ends at the first [stop()]
    that raises. *)
Lemma stop_removed_loop l s :
  NoDup l →
  (∀ d, d ∈ l → d ∈ dom (readers s)) →
  ∃ r s' stopped rest,
    for_each l stop_removed s = (r, s')
    ∧ l = stopped ++ rest
    ∧ (r = Ret tt → rest = [])
    ∧ calls s' = calls s ++ map Stop stopped
    ∧ world s' = world s
    ∧ (∀ k, readers s' !! k = if decide (k ∈ stopped) then None else readers s !! k)
    ∧ ((∀ d rd, d ∈ l → readers s !! d = Some rd → (stop rd).1 = Ret tt) → r = Ret tt).
Proof.
intros Hnd. revert s. induction Hnd as [|d l Hd Hnd IH]; intros s Hdom.
- exists (Ret tt), s, [], []. repeat split; try done.
  by rewrite app_nil_r.
- assert (d ∈ dom (readers s)) as [rd Hrd]%elem_of_dom by (apply Hdom; left).
  set (s1 := {| readers := delete d (readers s); world := world s;
                calls := calls s ++ [Stop d] |}).
  assert (stop_removed d s = ((stop rd).1, s1)) as Hstep.
  { unfold stop_removed, pop, mbind, M_bind. by rewrite Hrd. }
  cbn [for_each]. unfold mbind at 1, M_bind at 1. rewrite Hstep.
  destruct (stop rd).1 as [[]|e] eqn:Hstop.
  + destruct (IH s1) as (r & s' & stopped & rest & Hrun & Hl & Hret & Hcalls & Hw & Hrs & Hok).
    { intros d' Hd'. cbn [s1 readers]. rewrite dom_delete. apply elem_of_difference.
      split; [apply Hdom; by right|]. rewrite elem_of_singleton. by intros ->. }
    exists r, s', (d :: stopped), rest. rewrite Hrun.
    repeat split; try done.
    * by rewrite <- app_comm_cons, <- Hl.
    * rewrite Hcalls. cbn [s1 calls map]. by rewrite <- app_assoc.
    * intros k. rewrite Hrs. cbn [s1 readers].
      destruct (decide (k = d)) as [->|Hne].
      -- rewrite lookup_delete_eq. repeat case_decide; try done; set_solver.
      -- rewrite lookup_delete_ne by done.
         repeat case_decide; try done; set_solver.
    * intros Hall. apply Hok. intros d' rd' Hd' Hrd'. cbn [s1 readers] in Hrd'.
      apply (Hall d' rd'); [by right|].
      rewrite lookup_delete_ne in Hrd'; [done|]. by intros ->.
  + exists (Raise e), s1, [d], l. repeat split; try done.
    * intros k. cbn [s1 readers].
      destruct (decide (k = d)) as [->|Hne].
      -- rewrite lookup_delete_eq. case_decide; [done|set_solver].
      -- rewrite lookup_delete_ne by done. case_decide; [set_solver|done].
    * intros Hall. rewrite <- Hstop. apply (Hall d rd); [left|done].
Qed.

Lemma start_new_step cfg env dev s :
  ∃ r s' rd,
    start_new utcnow_isoformat cfg env dev s = (r, s')
    ∧ calls s' = calls s ++ [Create dev]
    ∧ readers s' = <[dev := rd]> (readers s)
    ∧ (start_returns utcnow_isoformat cfg env dev → r = Ret tt).
Proof.
unfold start_new, start_returns, log, store, in_world, mbind, M_bind, modify. cbn.
destruct (start _ _ _ _) as [[rd|e] w'] eqn:Hs; cbn.
- exists (Ret tt). eexists. exists rd. repeat split. cbn. by rewrite insert_insert_eq.
- exists (Raise e). eexists. eexists. repeat split. cbn.
  intros Hret. destruct (Hret (world s)) as (rd & w'' & Hs'). congruence.
Qed.

(** The second loop creates a reader for each device of its list in order
    and ends at the first [start()] that raises. *)
Lemma start_new_loop cfg env l s :
  ∃ r s' created rest,
    for_each l (start_new utcnow_isoformat cfg env) s = (r, s')
    ∧ l = created ++ rest
    ∧ (r = Ret tt → rest = [])
    ∧ calls s' = calls s ++ map Create created
    ∧ dom (readers s') = dom (readers s) ∪ list_to_set created
    ∧ (∀ k, k ∉ created → readers s' !! k = readers s !! k)
    ∧ ((∀ d, d ∈ l → start_returns utcnow_isoformat cfg env d) → r = Ret tt).
Proof.
revert s. induction l as [|d l IH]; intros s.
- exists (Ret tt), s, [], []. repeat split; try done.
  + by rewrite app_nil_r.
  + set_solver.
- destruct (start_new_step cfg env d s) as (r1 & s1 & rd & Hstep & Hc1 & Hr1 & Hok1).
  cbn [for_each]. unfold mbind at 1, M_bind at 1. rewrite Hstep.
  destruct r1 as [[]|e].
  + destruct (IH s1) as (r & s' & created & rest & Hrun & Hl & Hret & Hcalls & Hdom & Hrs & Hok).
    exists r, s', (d :: created), rest. rewrite Hrun.
    repeat split; try done.
    * by rewrite <- app_comm_cons, <- Hl.
    * rewrite Hcalls, Hc1. cbn [map]. by rewrite <- app_assoc.
    * rewrite Hdom, Hr1, dom_insert_L. set_solver.
    * intros k Hk. rewrite Hrs, Hr1 by set_solver.
      apply lookup_insert_ne. set_solver.
    * intros Hall. apply Hok. intros d' Hd'. apply Hall. by right.
  + exists (Raise e), s1, [d], l. repeat split; try done.
    * rewrite Hr1, dom_insert_L. set_solver.
    * intros k Hk. rewrite Hr1. apply lookup_insert_ne. set_solver.
    * intros Hall. apply Hok1, Hall. left.
Qed.

(** What a tick does, in full: [stopped] and [created] are the devices of
    its calls, in order. *)
Lemma tick_spec cfg env s ports :
  list_candidate_ports fnmatch set_iter cfg (comports env) = Ret ports →
  let wanted : gset str := list_to_set ports in
  let removed := dom (readers s) ∖ wanted in
  let added := wanted ∖ dom (readers s) in
  ∃ r s' stopped created,
    tick fnmatch set_iter utcnow_isoformat cfg env s = (r, s')
    ∧ calls s' = calls s ++ map Stop stopped ++ map Create created
    ∧ NoDup stopped ∧ NoDup created
    ∧ (∀ d, d ∈ stopped → d ∈ removed ∧ readers s' !! d = None)
    ∧ (∀ d, d ∈ created → d ∈ added)
    ∧ (created ≠ [] → stopped ≡ₚ elements removed)
    ∧ (r = Ret tt →
       dom (readers s') = wanted
       ∧ stopped ≡ₚ elements removed
       ∧ created ≡ₚ elements added)
    ∧ (dom (readers s) = wanted →
       r = Ret tt ∧ stopped = [] ∧ created = [] ∧ s' = s)
    ∧ ((∀ d rd, d ∈ removed → readers s !! d = Some rd → (stop rd).1 = Ret tt) →
       (∀ d, d ∈ added → start_returns utcnow_isoformat cfg env d) →
       r = Ret tt)
    ∧ (∀ d, d ∈ dom (readers s) → d ∈ wanted →
       (d ∉ stopped) ∧ (d ∉ created) ∧ readers s' !! d = readers s !! d).
Proof.
intros Hp wanted removed added.
rewrite (tick_unfold _ _ _ _ Hp). fold wanted. fold removed.
destruct (stop_removed_loop (set_iter removed) s)
  as (r1 & s1 & stopped & rest1 & Hrun1 & Hl1 & Hret1 & Hc1 & Hw1 & Hrs1 & Hok1).
{ apply set_iter_NoDup. }
{ intros d Hd. apply set_iter_elem in Hd. set_solver. }
assert (NoDup stopped) as Hnd1.
{ pose proof (set_iter_NoDup removed) as Hnd. rewrite Hl1 in Hnd.
  by apply NoDup_app in Hnd as [? _]. }
assert (∀ d, d ∈ stopped → d ∈ removed) as Hin1.
{ intros d Hd. apply set_iter_elem. rewrite Hl1. set_solver. }
unfold mbind at 1, M_bind at 1. rewrite Hrun1.
destruct r1 as [[]|e].
- (* all removals made *)
  rewrite (Hret1 eq_refl), app_nil_r in Hl1.
  assert (stopped ≡ₚ elements removed) as Hperm1.
  { by rewrite <- Hl1, set_iter_perm. }
  assert (dom (readers s1) = dom (readers s) ∩ wanted) as Hdom1.
  { apply set_eq. intros k. rewrite elem_of_dom, Hrs1.
    rewrite elem_of_intersection, elem_of_dom.
    case_decide as Hk.
    - apply Hin1 in Hk. split; [by intros [? ?]|]. set_solver.
    - split; [|tauto]. intros Hsome. split; [done|].
      destruct (decide (k ∈ wanted)); [done|]. exfalso. apply Hk.
      rewrite Hperm1, elem_of_elements. apply elem_of_dom in Hsome. set_solver. }
  unfold mbind at 1, M_bind at 1, gets at 1.
  assert (wanted ∖ dom (readers s1) = added) as -> by set_solver.
  destruct (start_new_loop cfg env (set_iter added) s1)
    as (r & s' & created & rest & Hrun & Hl & Hret & Hc & Hdom & Hrs & Hok).
  assert (NoDup created) as Hnd.
  { pose proof (set_iter_NoDup added) as Hnd. rewrite Hl in Hnd.
    by apply NoDup_app in Hnd as [? _]. }
  assert (∀ d, d ∈ created → d ∈ added) as Hin.
  { intros d Hd. apply set_iter_elem. rewrite Hl. set_solver. }
  exists r, s', stopped, created. rewrite Hrun.
  split; [done|]. split; [by rewrite Hc, Hc1, <- app_assoc|].
  split; [done|]. split; [done|].
  split; [|split; [done|split; [done|split; [|split; [|split]]]]].
  + intros d Hd. split; [by apply Hin1|].
    rewrite Hrs, Hrs1; [by rewrite decide_True|].
    intros Hd'. apply Hin in Hd'. apply Hin1 in Hd. set_solver.
  + intros ->. rewrite (Hret eq_refl), app_nil_r in Hl.
    assert (created ≡ₚ elements added) as Hperm by by rewrite <- Hl, set_iter_perm.
    split; [|done].
    rewrite Hdom, Hdom1. apply set_eq. intros k.
    rewrite elem_of_union, elem_of_list_to_set, Hperm, elem_of_elements. 
    destruct (decide (k ∈ dom (readers s))); set_solver.
  + intros Heq.
    assert (removed = ∅) as Hr0 by set_solver.
    assert (added = ∅) as Ha0 by set_solver.
    rewrite Hr0, set_iter_empty in Hrun1, Hl1.
    rewrite Ha0, set_iter_empty in Hrun, Hl.
    symmetry in Hl. apply app_eq_nil in Hl as [-> _].
    cbn in Hrun1, Hrun. unfold mret, M_ret in Hrun1, Hrun. by simplify_eq.
  + intros _ Hstarts. apply Hok. intros d Hd. by apply Hstarts, set_iter_elem.
  + intros d Hd Hw.
    assert (d ∉ stopped) as Hn1 by (intros Hd'%Hin1; set_solver).
    assert (d ∉ created) as Hn by (intros Hd'%Hin; set_solver).
    split; [done|]. split; [done|]. by rewrite Hrs, Hrs1, decide_False.
- (* a [stop()] raised: no creation *)
  exists (Raise e), s1, stopped, []. rewrite app_nil_r.
  split; [done|]. split; [done|]. split; [done|]. split; [constructor|].
  split; [|split; [|split; [done|split; [done|split; [|split]]]]].
  + intros d Hd. split; [by apply Hin1|]. by rewrite Hrs1, decide_True.
  + by intros d Hd%elem_of_nil.
  + intros Heq.
    assert (removed = ∅) as Hr0 by set_solver.
    rewrite Hr0, set_iter_empty in Hrun1. cbn in Hrun1.
    unfold mret, M_ret in Hrun1. simplify_eq.
  + intros Hstops _. apply Hok1. intros d rd Hd. by apply Hstops, set_iter_elem.
  + intros d Hd Hw.
    assert (d ∉ stopped) as Hn1 by (intros Hd'%Hin1; set_solver).
    split; [done|]. split; [by intros ?%elem_of_nil|]. by rewrite Hrs1, decide_False.
Qed.


(** C2: in a tick whose enumeration gave [ports], the calls are some stops
    followed by some creations.  Every stop is for a managed device that
    is no longer wanted, and its reader has left the dictionary; every
    creation is for a wanted device that was not managed; a creation
    happens only after all the removals.  When the tick completes, the
    keys of the dictionary are exactly the candidates, and all removals
    and additions were made.  When the keys already are the candidates,
    the tick completes without any call and leaves everything as it
    was. *)
Theorem C2_tick_reconciles cfg env s ports :
  list_candidate_ports fnmatch set_iter cfg (comports env) = Ret ports →
  let wanted : gset str := list_to_set ports in
  let removed := dom (readers s) ∖ wanted in
  let added := wanted ∖ dom (readers s) in
  ∃ r s' stopped created,
    tick fnmatch set_iter utcnow_isoformat cfg env s = (r, s')
    ∧ calls s' = calls s ++ map Stop stopped ++ map Create created
    ∧ NoDup stopped ∧ NoDup created
    ∧ (∀ d, d ∈ stopped → d ∈ removed ∧ readers s' !! d = None)
    ∧ (∀ d, d ∈ created → d ∈ added)
    ∧ (created ≠ [] → stopped ≡ₚ elements removed)
    ∧ (r = Ret tt →
       dom (readers s') = wanted
       ∧ stopped ≡ₚ elements removed
       ∧ created ≡ₚ elements added)
    ∧ (dom (readers s) = wanted →
       r = Ret tt ∧ stopped = [] ∧ created = [] ∧ s' = s)
    ∧ ((∀ d rd, d ∈ removed → readers s !! d = Some rd → (stop rd).1 = Ret tt) →
       (∀ d, d ∈ added → start_returns utcnow_isoformat cfg env d) →
       r = Ret tt).
Proof.
intros Hp wanted removed added.
destruct (tick_spec cfg env s ports Hp)
  as (r & s' & stopped & created & H1 & H2 & H3 & H4 & H5 & H6 & H7 & H8 & H9 & H10 & _).
by exists r, s', stopped, created.
Qed.

(** C5: when the open fails, [start] publishes one status message with
    state [error] and the failure message (QoS 1, retained) and returns;
    the reader is left without streams and without a task.  Nothing such a
    reader is given to read is published, and [stop()] finds nothing to
    do.  No tick retries: while the device stays a candidate the loop
    neither stops this reader nor creates another, and leaves it as it
    is. *)
Theorem C5_open_failure_is_terminal dev prefix cfg msg w env s ports :
  let self := SerialReader_init dev prefix cfg in
  list_candidate_ports fnmatch set_iter cfg (comports env) = Ret ports →
  readers s !! dev = Some self →
  dev ∈ ports →
  start utcnow_isoformat self (Raise (Exception msg)) w
  = (Ret self,
     told [{| topic := status_topic self;
              payload := json_dumps (status_msg self (lit "error") (Some msg)
                                       (utcnow_isoformat (clock w)));
              qos := 1; retain := true |}] w)
  ∧ task self = None ∧ reader self = None ∧ writer self = None
  ∧ (∀ reads w', run_task utcnow_isoformat self reads w' = (Ret self, w'))
  ∧ stop self = (Ret tt, self)
  ∧ ∃ r s' cs,
      tick fnmatch set_iter utcnow_isoformat cfg env s = (r, s')
      ∧ calls s' = calls s ++ cs
      ∧ (Stop dev ∉ cs) ∧ (Create dev ∉ cs)
      ∧ readers s' !! dev = Some self.
Proof.
intros self Hp Hs Hd. repeat split; try done.
destruct (tick_spec cfg env s ports Hp)
  as (r & s' & stopped & created & H1 & H2 & _ & _ & _ & _ & _ & _ & _ & _ & Hkeep).
destruct (Hkeep dev) as (Hn1 & Hn2 & Hk).
{ apply elem_of_dom. by eexists. }
{ by apply elem_of_list_to_set. }
exists r, s', (map Stop stopped ++ map Create created).
split; [done|]. split; [done|]. rewrite Hk.
split; [|split; [|done]]; rewrite elem_of_app, !list_elem_of_fmap;
  intros [(d & Heq & Hin)|(d & Heq & Hin)]; by simplify_eq.
Qed.

(** The [finally] clause touches neither the log of calls nor the bus, and
    keeps every reader in the dictionary; it raises only what a [stop()]
    raises. *)
Lemma shutdown_spec s :
  ∃ r s',
    shutdown set_iter s = (r, s')
    ∧ calls s' = calls s
    ∧ bus (world s') = bus (world s)
    ∧ dom (readers s') = dom (readers s)
    ∧ ((∀ d rd, readers s !! d = Some rd → (stop rd).1 = Ret tt) →
       r = Ret tt ∧ connected (world s') = false).
Proof.
unfold shutdown. unfold mbind at 1, M_bind at 1, gets at 1.
assert (∀ l s1,
  (∀ d, d ∈ l → d ∈ dom (readers s1)) →
  ∃ r s',
    for_each l (λ dev,
      match readers s !! dev with
      | Some r => store dev (stop r).2;; lift (stop r).1
      | None => mret tt
      end) s1 = (r, s')
    ∧ calls s' = calls s1 ∧ world s' = world s1
    ∧ dom (readers s') = dom (readers s1)
    ∧ ((∀ d rd, readers s !! d = Some rd → (stop rd).1 = Ret tt) → r = Ret tt))
  as Hloop.
{ induction l as [|d l IH]; intros s1 Hdom.
  - by exists (Ret tt), s1.
  - cbn [for_each]. unfold mbind at 1, M_bind at 1.
    destruct (readers s !! d) as [rd|] eqn:Hrd.
    + set (s2 := set_readers (insert d (stop rd).2) s1).
      assert ((store d (stop rd).2;; lift (stop rd).1) s1 = ((stop rd).1, s2))
        as -> by done.
      assert (dom (readers s2) = dom (readers s1)) as Hd2.
      { cbn. rewrite dom_insert_L. set_solver. }
      destruct (stop rd).1 as [[]|e] eqn:Hstop.
      * destruct (IH s2) as (r & s' & Hrun & Hc & Hw & Hd & Hok).
        { intros d' Hd'. rewrite Hd2. set_solver. }
        exists r, s'. rewrite Hrun, Hd. by repeat split.
      * exists (Raise e), s2. repeat split; [done|].
        intros Hall. rewrite <- Hstop. by eapply Hall.
    + destruct (IH s1) as (r & s' & Hrun & Hc & Hw & Hd & Hok); [set_solver|].
      exists r, s'. split; [exact Hrun | done]. }
destruct (Hloop (set_iter (dom (readers s))) s) as (r & s1 & Hrun & Hc & Hw & Hd & Hok).
{ intros d. by rewrite set_iter_elem. }
unfold mbind at 1, M_bind at 1. rewrite Hrun. destruct r as [[]|e].
- exists (Ret tt). eexists. split; [reflexivity|]. cbn. rewrite Hw. repeat split; done.
- exists (Raise e), s1. rewrite Hw.
  split; [done|]. split; [done|]. split; [done|]. split; [done|].
  intros Hall. by specialize (Hok Hall).
Qed.

Lemma loop_app cfg envs1 envs2 s :
  loop fnmatch set_iter utcnow_isoformat cfg (envs1 ++ envs2) s
  = (loop fnmatch set_iter utcnow_isoformat cfg envs1;;
     loop fnmatch set_iter utcnow_isoformat cfg envs2) s.
Proof.
revert s. induction envs1 as [|env envs1 IH]; intros s; [done|].
cbn [app loop]. unfold mbind, M_bind in *.
destruct (tick _ _ _ _ _ _) as [[[]|e] s1]; [|done].
destruct (sleep _ _ _ _) as [[[]|e] s2]; [|done].
apply IH.
Qed.

(** C3, as the code has it: an exception of the port listing is not
    handled anywhere.  The tick in which it is raised changes nothing and
    raises it; the loop is left through [finally], which stops the managed
    readers; [main_async] ends by raising, whatever the host would have
    answered later, so that no enumeration follows.  The exception that
    leaves is the listing's own when every [stop()] of [finally] returns,
    and then the bus client has been disconnected. *)
Theorem C3_listing_failure_leaves_the_loop cfg envs1 env envs2 s0 s e :
  loop fnmatch set_iter utcnow_isoformat cfg envs1 s0 = (Ret tt, s) →
  comports env = Raise e →
  tick fnmatch set_iter utcnow_isoformat cfg env s = (Raise e, s)
  ∧ main_async fnmatch set_iter utcnow_isoformat cfg (envs1 ++ env :: envs2) s0
    = try_finally (raise e) (shutdown set_iter) s
  ∧ ∃ e' s',
      main_async fnmatch set_iter utcnow_isoformat cfg (envs1 ++ env :: envs2) s0
      = (Raise e', s')
      ∧ calls s' = calls s
      ∧ bus (world s') = bus (world s)
      ∧ dom (readers s') = dom (readers s)
      ∧ ((∀ d rd, readers s !! d = Some rd → (stop rd).1 = Ret tt) →
         e' = e ∧ connected (world s') = false).
Proof.
intros Hloop Hfail.
assert (tick fnmatch set_iter utcnow_isoformat cfg env s = (Raise e, s)) as Htick.
{ unfold tick, list_candidate_ports. rewrite Hfail. done. }
assert (main_async fnmatch set_iter utcnow_isoformat cfg (envs1 ++ env :: envs2) s0
        = try_finally (raise e) (shutdown set_iter) s) as Hmain.
{ unfold main_async. rewrite loop_app. unfold mbind at 1, M_bind at 1.
  rewrite Hloop. cbn [loop]. unfold mbind at 1, M_bind at 1. by rewrite Htick. }
split; [done|]. split; [done|]. rewrite Hmain.
destruct (shutdown_spec s) as (r & s' & Hsd & Hc & Hb & Hd & Hok).
unfold try_finally, raise. rewrite Hsd.
destruct r as [[]|e'].
- exists e, s'. repeat split; try done. by apply Hok.
- exists e', s'. repeat split; try done; by destruct (Hok ltac:(done)).
Qed.

End Loop.

(** ** Configuration *)


Lemma lstrip_app a b :
  lstrip (a ++ b) = match lstrip a with [] => lstrip b | _ :: _ => lstrip a ++ b end.
Proof.
induction a as [|c a IH]; [done|]. cbn [app lstrip].
destruct (isspace c); [apply IH | done].
Qed.

Lemma rstrip_cons c s :
  rstrip (c :: s)
  = match rstrip s with
    | [] => if isspace c then [] else [c]
    | _ :: _ => c :: rstrip s
    end.
Proof.
unfold rstrip. cbn [rev]. rewrite lstrip_app.
destruct (lstrip (rev s)) as [|d t] eqn:E.
- cbn. by destruct (isspace c).
- rewrite rev_app_distr. change (rev [c]) with [c].
  destruct (rev (d :: t)) as [|x r] eqn:Er; [|done].
  apply (f_equal (@length N)) in Er. rewrite length_rev in Er. done.
Qed.

Lemma rstrip_nil : rstrip [] = [].
Proof. done. Qed.

Lemma lstrip_idem s : lstrip (lstrip s) = lstrip s.
Proof.
induction s as [|c s IH]; [done|]. cbn [lstrip].
destruct (isspace c) eqn:E; [done|]. cbn [lstrip]. by rewrite E.
Qed.

Lemma rstrip_idem s : rstrip (rstrip s) = rstrip s.
Proof. unfold rstrip. by rewrite rev_involutive, lstrip_idem. Qed.

(** What is left of a text that begins with a visible character still
    begins with it. *)
Lemma lstrip_rstrip_head c s :
  isspace c = false → lstrip (rstrip (c :: s)) = rstrip (c :: s).
Proof.
intros Hc. rewrite rstrip_cons.
destruct (rstrip s); rewrite ?Hc; cbn [lstrip]; by rewrite Hc.
Qed.

Lemma strip_idem s : strip (strip s) = strip s.
Proof.
unfold strip. destruct (lstrip s) as [|c t] eqn:E; [done|].
assert (isspace c = false) as Hc.
{ clear -E. induction s as [|d s IH]; [done|]. cbn [lstrip] in E.
  destruct (isspace d) eqn:Hd; [by apply IH | by simplify_eq]. }
by rewrite lstrip_rstrip_head, rstrip_idem.
Qed.

Lemma lstrip_elem c s : c ∈ lstrip s → c ∈ s.
Proof.
induction s as [|d s IH]; [done|]. cbn [lstrip].
destruct (isspace d); [|done]. intros H. right. by apply IH.
Qed.

Lemma rstrip_elem c s : c ∈ rstrip s → c ∈ s.
Proof.
unfold rstrip. rewrite list_elem_of_In, <- in_rev, <- list_elem_of_In.
intros H%lstrip_elem. by rewrite list_elem_of_In, <- in_rev, <- list_elem_of_In in H.
Qed.

Lemma strip_elem c s : c ∈ strip s → c ∈ s.
Proof. unfold strip. by intros H%rstrip_elem%lstrip_elem. Qed.

Lemma split_nonempty sep s : split sep s ≠ [].
Proof.
destruct s as [|c s]; [done|]. cbn [split].
destruct (c =? sep); [done|]. by destruct (split sep s).
Qed.

Lemma split_no_sep sep s p : p ∈ split sep s → sep ∉ p.
Proof.
revert p. induction s as [|c s IH]; intros p.
- cbn. intros ->%list_elem_of_singleton. by intros ?%elem_of_nil.
- cbn [split]. destruct (N.eqb_spec c sep) as [->|Hne].
  + intros [->|Hp]%elem_of_cons; [by intros ?%elem_of_nil | by apply IH].
  + pose proof (split_nonempty sep s). destruct (split sep s) as [|q qs]; [done|].
    intros [->|Hp]%elem_of_cons.
    * intros [?|Hq]%elem_of_cons; [congruence|]. revert Hq. apply IH. left.
    * apply IH. by right.
Qed.

Lemma split_plain sep p : sep ∉ p → split sep p = [p].
Proof.
induction p as [|c p IH]; [done|]. intros Hn. cbn [split].
destruct (N.eqb_spec c sep) as [->|Hne]; [exfalso; apply Hn; left|].
rewrite IH; [done|]. intros H. apply Hn. by right.
Qed.

Lemma split_app sep p s : sep ∉ p → split sep (p ++ sep :: s) = p :: split sep s.
Proof.
induction p as [|c p IH]; intros Hn.
- cbn [app split]. by rewrite N.eqb_refl.
- cbn [app split]. destruct (N.eqb_spec c sep) as [->|Hne]; [exfalso; apply Hn; left|].
  rewrite IH; [done|]. intros H. apply Hn. by right.
Qed.

Lemma split_join sep xs :
  xs ≠ [] → Forall (λ p, sep ∉ p) xs → split sep (join [sep] xs) = xs.
Proof.
intros Hne Hall. induction Hall as [|p xs Hp Hall IH]; [done|].
destruct xs as [|q xs].
- cbn [join]. by apply split_plain.
- change (join [sep] (p :: q :: xs)) with (p ++ sep :: join [sep] (q :: xs)).
  rewrite split_app by done. f_equal. by apply IH.
Qed.

(** X1: every pattern that [_split_csv] returns is clean: it is not empty,
    has no white space at either end and contains no comma. *)
Theorem X1_split_csv_pieces_clean value : Forall clean (_split_csv value).
Proof.
apply Forall_forall. intros p. unfold _split_csv.
rewrite list_elem_of_omap. intros (q & Hq & Hp).
destruct (strip q) as [|c t] eqn:E; [done|]. simplify_eq.
rewrite <- E. repeat split.
- by rewrite E.
- apply strip_idem.
- intros H%strip_elem. by apply (split_no_sep _ _ _ Hq).
Qed.

(** X2: splitting what was joined with commas gives the pieces back, when
    the pieces are clean. *)
Theorem X2_split_csv_join xs :
  Forall clean xs → _split_csv (join (lit ",") xs) = xs.
Proof.
intros Hall. destruct xs as [|x xs]; [done|].
unfold _split_csv. change (lit ",") with [0x2C].
rewrite split_join; [|done|].
- induction Hall as [|p ps (Hne & Hs & _) _ IH]; [done|].
  cbn [omap list_omap]. rewrite Hs. destruct p; [done|]. by rewrite IH.
- eapply Forall_impl; [exact Hall|]. by intros p (_ & _ & ?).
Qed.

(** A value of commas and white space only has no pieces. *)
Lemma _split_csv_blank value :
  Forall (λ c, c = 0x2C ∨ isspace c = true) value → _split_csv value = [].
Proof.
intros Hall. unfold _split_csv.
assert (∀ p, p ∈ split 0x2C value → Forall (λ c, isspace c = true) p) as Hsp.
{ induction Hall as [|c s Hc Hall IH]; intros p.
  - cbn. by intros ->%list_elem_of_singleton.
  - cbn [split]. destruct (N.eqb_spec c 0x2C) as [->|Hne].
    + intros [->|Hp]%elem_of_cons; [done | by apply IH].
    + destruct Hc as [?|Hc]; [done|].
      pose proof (split_nonempty 0x2C s). destruct (split 0x2C s) as [|q qs]; [done|].
      intros [->|Hp]%elem_of_cons.
      * constructor; [done|]. apply IH. left.
      * apply IH. by right. }
assert (∀ p, Forall (λ c, isspace c = true) p → strip p = []) as Hstrip.
{ intros p Hp. unfold strip.
  assert (lstrip p = []) as ->; [|done].
  induction Hp as [|c p Hc _ IH]; [done|]. cbn [lstrip]. by rewrite Hc. }
induction (split 0x2C value) as [|p ps IH]; [done|].
cbn [omap list_omap]. rewrite (Hstrip p) by (apply Hsp; left).
apply IH. intros q Hq. apply Hsp. by right.
Qed.

Section ConfiguredEnumeration.

Context {float : Type} (float_of_str : str → Res float) (lower : str → str).
Context (set_iter : gset str → list str).
Hypothesis set_iter_perm : ∀ X, set_iter X ≡ₚ elements X.

(** X3: a variable that is set is never replaced by its default, not even
    when it is empty.  With [INCLUDE_PATTERNS] set to the empty text, or to
    commas and blanks only, the settings have no include pattern and no
    port is ever a candidate, whatever the matcher. *)
Theorem X3_blank_include_disables_scanning fnmatch environ value interval cfg ports :
  environ !! lit "INCLUDE_PATTERNS" = Some value →
  Forall (λ c, c = 0x2C ∨ isspace c = true) value →
  load_settings float_of_str lower environ = Ret (interval, cfg) →
  include_patterns cfg = []
  ∧ list_candidate_ports fnmatch set_iter cfg (Ret ports) = Ret [].
Proof.
intros Henv Hblank Hload. unfold load_settings in Hload.
destruct (float_of_str _) as [x|e]; [|done]. simplify_eq.
assert (_env environ (lit "INCLUDE_PATTERNS") (lit "/dev/ttyUSB*,/dev/ttyACM*") = value)
  as Hv by (unfold _env; by rewrite Henv).
cbn [include_patterns list_candidate_ports exclude_patterns].
rewrite Hv, (_split_csv_blank _ Hblank). split; [done|].
assert (List.filter (λ p, matches fnmatch p [] && negb (matches fnmatch p
          (_split_csv (_env environ (lit "EXCLUDE_PATTERNS")
             (lit "/dev/ttyS*,/dev/input*,/dev/hidraw*"))))) ports = []) as ->.
{ by induction ports. }
f_equal. change (list_to_set []) with (∅ : gset str).
assert (set_iter ∅ = []) as ->; [|done].
apply Permutation_nil_r. by rewrite set_iter_perm, elements_empty.
Qed.

(** X4: with [INCLUDE_PATTERNS] and [EXCLUDE_PATTERNS] unset, on a POSIX
    host, the candidates are the listed ports whose path begins with
    [/dev/ttyUSB] or [/dev/ttyACM]: no default exclude pattern can match
    such a path. *)
Theorem X4_default_candidates environ interval cfg ports :
  environ !! lit "INCLUDE_PATTERNS" = None →
  environ !! lit "EXCLUDE_PATTERNS" = None →
  load_settings float_of_str lower environ = Ret (interval, cfg) →
  ∃ l, list_candidate_ports posix_fnmatch set_iter cfg (Ret ports) = Ret l
       ∧ ∀ p, p ∈ l ↔ p ∈ ports
                      ∧ ((∃ rest, p = lit "/dev/ttyUSB" ++ rest)
                         ∨ (∃ rest, p = lit "/dev/ttyACM" ++ rest)).
Proof.
intros Hinc Hexc Hload. unfold load_settings in Hload.
destruct (float_of_str _) as [x|e]; [|done]. simplify_eq.
destruct (list_candidate_ports_elem posix_fnmatch set_iter set_iter_perm
            {| mqtt_broker := _env environ (lit "MQTT_BROKER") (lit "mqtt://homeassistant:1883");
               mqtt_username := _env environ (lit "MQTT_USERNAME") [];
               mqtt_password := _env environ (lit "MQTT_PASSWORD") [];
               include_patterns :=
                 _split_csv (_env environ (lit "INCLUDE_PATTERNS")
                               (lit "/dev/ttyUSB*,/dev/ttyACM*"));
               exclude_patterns :=
                 _split_csv (_env environ (lit "EXCLUDE_PATTERNS")
                               (lit "/dev/ttyS*,/dev/input*,/dev/hidraw*"));
               enable_discovery :=
                 bool_decide (lower (_env environ (lit "ENABLE_DISCOVERY") (lit "true"))
                              = lit "true");
               discovery_prefix := _env environ (lit "DISCOVERY_PREFIX") (lit "homeassistant");
               probe_command := _env environ (lit "PROBE_COMMAND") [] |} ports)
  as (l & Hl & Hspec).
exists l. split; [exact Hl|]. intros p. rewrite Hspec. clear Hl Hspec.
cbn [include_patterns exclude_patterns]. unfold _env. rewrite Hinc, Hexc.
change (_split_csv (lit "/dev/ttyUSB*,/dev/ttyACM*"))
  with [lit "/dev/ttyUSB" ++ lit "*"; lit "/dev/ttyACM" ++ lit "*"].
change (_split_csv (lit "/dev/ttyS*,/dev/input*,/dev/hidraw*"))
  with [lit "/dev/ttyS" ++ lit "*"; lit "/dev/input" ++ lit "*"; lit "/dev/hidraw" ++ lit "*"].
assert (plain (lit "/dev/ttyUSB")) as P1 by (repeat constructor; done).
assert (plain (lit "/dev/ttyACM")) as P2 by (repeat constructor; done).
assert (plain (lit "/dev/ttyS")) as P3 by (repeat constructor; done).
assert (plain (lit "/dev/input")) as P4 by (repeat constructor; done).
assert (plain (lit "/dev/hidraw")) as P5 by (repeat constructor; done).
cbn [matches existsb].
rewrite !orb_false_r.
split.
- intros (Hp & Hi & _). split; [done|].
  apply orb_true_iff in Hi as [Hi|Hi].
  + left. by apply posix_fnmatch_prefix in Hi.
  + right. by apply posix_fnmatch_prefix in Hi.
- intros (Hp & Hpre). split; [done|]. split.
  + apply orb_true_iff.
    destruct Hpre as [Hr|Hr]; [left|right]; by apply posix_fnmatch_prefix.
  + apply orb_false_iff. split; [|apply orb_false_iff; split];
      apply not_true_iff_false; intros (r & Hr)%posix_fnmatch_prefix; try done;
      destruct Hpre as [(r' & ->)|(r' & ->)]; done.
Qed.

End ConfiguredEnumeration.

(** ** More on the device reader *)

Section ReaderMore.

Context (utcnow_isoformat : nat → str).

Local Abbreviation now w := (utcnow_isoformat (clock w)).

(** X5: when the open succeeds, [start] publishes exactly one status
    message, [connected] without error, keeps the two streams, hands the
    probe (if any) to the writer and creates the read task.  A [drain] that
    raises an [Exception] changes nothing of this. *)
Theorem X5_start_connects self r w w0 :
  (∀ e, drain_error w = Some e → isinstance_Exception e = true) →
  start utcnow_isoformat self (Ret (r, w)) w0
  = (Ret {| device := device self; topic_prefix := topic_prefix self;
            cfg := cfg self; reader := Some r;
            writer := Some {| is_closing := is_closing w;
                              written := written w ++ probe_data (cfg self);
                              drain_error := drain_error w;
                              wait_closed_error := wait_closed_error w |};
            task := Some Pending |},
     told [status_publish self (lit "connected") None (now w0)] w0).
Proof.
intros Hdrain. destruct self as [d p c rd wr t], w as [cl wn de we].
unfold start, probe, probe_data, lift, mbind, M_bind, mret, M_ret.
rewrite _publish_status_eq. cbn -[utf8_encode] in *.
destruct (probe_command c) as [|x pc] eqn:Hpc; cbn -[utf8_encode].
- by rewrite app_nil_r.
- match goal with
  | |- context [utf8_encode ?a] => destruct (utf8_encode a) as [data|] eqn:Henc
  end; cbn.
  + destruct de as [e|]; cbn; [|done]. by rewrite (Hdrain e eq_refl).
  + by rewrite app_nil_r.
Qed.

(** X6: a reader whose task has ended and whose writer is open is closed
    by [stop()], which returns even when [wait_closed] raises an
    [Exception]; nothing else of the reader changes. *)
Theorem X6_stop_closes_writer self w :
  (∀ t, task self = Some t → done t = true) →
  writer self = Some w →
  is_closing w = false →
  (∀ e, wait_closed_error w = Some e → isinstance_Exception e = true) →
  stop self = (Ret tt, set_writer (close w) self).
Proof.
destruct self as [d p c rd wr t], w as [cl wn de we]. cbn.
intros Ht -> -> Hwc.
unfold stop, mbind, M_bind, gets, modify, suppress_Exception, wait_closed.
destruct t as [[]|]; cbn; try (by specialize (Ht _ eq_refl));
  (destruct we as [e|]; cbn; [by rewrite (Hwc e eq_refl)|done]).
Qed.

Lemma read_lines_returns self reads w :
  ∃ st w', read_lines utcnow_isoformat self reads w = (Ret st, w').
Proof.
revert w. induction reads as [|[|b line] reads IH]; intros w.
- by eexists _, _.
- by eexists _, _.
- rewrite read_lines_line. apply IH.
Qed.

Lemma read_lines_batches self l1 l2 w :
  read_lines utcnow_isoformat self (l1 ++ l2) w
  = match read_lines utcnow_isoformat self l1 w with
    | (Ret Awaiting, w1) => read_lines utcnow_isoformat self l2 w1
    | r => r
    end.
Proof.
revert w. induction l1 as [|[|b line] l1 IH]; intros w.
- done.
- done.
- rewrite <- app_comm_cons, !read_lines_line. apply IH.
Qed.

(** X7: how the reads are cut into batches does not matter: running the
    task over two batches in turn leaves the reader and the world as one
    run over both does. *)
Theorem X7_run_task_batches self l1 l2 w :
  run_task utcnow_isoformat self (l1 ++ l2) w
  = match run_task utcnow_isoformat self l1 w with
    | (Ret self1, w1) => run_task utcnow_isoformat self1 l2 w1
    | (Raise e, w1) => (Raise e, w1)
    end.
Proof.
destruct self as [d p c [rd|] wr [[]|]]; try done.
unfold run_task, _read_loop. cbn [task reader].
rewrite read_lines_batches.
by destruct (read_lines_returns
       {| device := d; topic_prefix := p; cfg := c; reader := Some rd;
          writer := wr; task := Some Pending |} l1 w) as ([] & w1 & ->).
Qed.


Lemma data_topic_ne_discovery self : discovery_topic self ≠ data_topic self.
Proof.
unfold discovery_topic, data_topic. intros Heq.
apply (f_equal last) in Heq. rewrite !app_assoc, !last_app in Heq. done.
Qed.

Lemma data_topic_ne_status self : status_topic self ≠ data_topic self.
Proof.
unfold status_topic, data_topic. intros Heq.
apply (f_equal last) in Heq. rewrite !app_assoc, !last_app in Heq. done.
Qed.

Lemma line_publishes_data self data ts :
  filter (λ m, topic m = data_topic self) (line_publishes self data ts)
  = [data_publish self data ts].
Proof.
unfold line_publishes. rewrite filter_cons_True by done. f_equal.
destruct (enable_discovery (cfg self)); [|done].
rewrite filter_cons_False; [done|]. apply data_topic_ne_discovery.
Qed.

Lemma read_lines_data self reads w :
  ∃ st w' ms,
    read_lines utcnow_isoformat self reads w = (Ret st, w')
    ∧ bus w' = bus w ++ ms
    ∧ filter (λ m, topic m = data_topic self) ms
      = imap (λ i line, data_publish self (line_payload line)
                          (utcnow_isoformat (clock w + i)))
             (lines_before_eof reads).
Proof.
revert w. induction reads as [|[|b line] reads IH]; intros w.
- exists Awaiting, w, []. by rewrite app_nil_r.
- rewrite read_lines_eof. eexists _, _, [_]. split; [done|]. split; [done|].
  rewrite filter_cons_False; [done|]. apply data_topic_ne_status.
- rewrite read_lines_line.
  destruct (IH (told (line_publishes self (line_payload (b :: line)) (now w)) w))
    as (st & w' & ms & Hrun & Hbus & Hms).
  exists st, w', (line_publishes self (line_payload (b :: line)) (now w) ++ ms).
  split; [done|]. split.
  + rewrite Hbus. cbn [told bus]. by rewrite <- app_assoc.
  + rewrite filter_app, line_publishes_data, Hms.
    cbn [lines_before_eof imap app told clock]. rewrite Nat.add_0_r. f_equal.
    apply imap_ext. intros i x _. cbn. by rewrite Nat.add_succ_r.
Qed.

(** X8: the data messages a reader publishes are those of the lines it
    read before the end of the stream, one per line and in the order of
    the lines, each stamped with its own reading of the clock; nothing is
    lost, repeated or published after the end of the stream. *)
Theorem X8_data_messages_follow_lines self rd reads w :
  reader self = Some rd →
  task self = Some Pending →
  ∃ self' w' ms,
    run_task utcnow_isoformat self reads w = (Ret self', w')
    ∧ bus w' = bus w ++ ms
    ∧ filter (λ m, topic m = data_topic self) ms
      = imap (λ i line, data_publish self (line_payload line)
                          (utcnow_isoformat (clock w + i)))
             (lines_before_eof reads).
Proof.
intros Hr Ht. unfold run_task, _read_loop. rewrite Ht, Hr.
destruct (read_lines_data self reads w) as (st & w' & ms & -> & Hbus & Hms).
destruct st; by eexists _, w', ms.
Qed.

Lemma utf8_decode_ascii errors line :
  Forall ascii_byte line → utf8_decode errors line = DecodedStr (map Byte.to_N line).
Proof.
induction 1 as [|b line Hb _ IH]; [done|].
cbn [utf8_decode map]. apply N.ltb_lt in Hb. by rewrite Hb, IH.
Qed.

Lemma line_payload_ascii line :
  Forall ascii_byte line → line_payload line = strip (map Byte.to_N line).
Proof.
intros Hl. unfold line_payload. by rewrite utf8_decode_ascii.
Qed.

(** X9: a line of ASCII bytes is published as its own text, without the
    white space at its ends: the line terminator never reaches the bus. *)
Theorem X9_ascii_line_payload line :
  Forall ascii_byte line →
  line_payload line = strip (map Byte.to_N line)
  ∧ ∀ text, Forall ascii_byte text → strip (map Byte.to_N text) = map Byte.to_N text →
            line = text ++ [x0d; x0a] ∨ line = text ++ [x0a] →
            line_payload line = map Byte.to_N text.
Proof.
intros Hl. split; [by apply line_payload_ascii|].
intros text Ht Hs Hline. rewrite line_payload_ascii by done.
assert (∀ tail, Forall (λ c, isspace c = true) tail →
          strip (map Byte.to_N text ++ tail) = map Byte.to_N text) as Htail.
{ intros tail Htl. rewrite <- Hs at 2. unfold strip.
  rewrite lstrip_app.
  assert (lstrip tail = []) as Hlt.
  { clear -Htl. induction Htl as [|c l Hc _ IH]; [done|]. cbn. by rewrite Hc. }
  destruct (lstrip (map Byte.to_N text)) as [|c t] eqn:E.
  - rewrite Hlt. done.
  - unfold rstrip. rewrite rev_app_distr, lstrip_app.
    assert (lstrip (rev tail) = []) as ->; [|done].
    assert (Forall (λ c, isspace c = true) (rev tail)) as Hr.
    { apply Forall_forall. intros x Hx. rewrite list_elem_of_In, <- in_rev, <- list_elem_of_In in Hx.
      by eapply Forall_forall in Htl. }
    clear -Hr. induction Hr as [|c l Hc _ IH]; [done|]. cbn. by rewrite Hc. }
destruct Hline as [->| ->]; rewrite map_app; apply Htail; by repeat constructor.
Qed.

Lemma lstrip_head c s t : lstrip s = c :: t → isspace c = false.
Proof.
induction s as [|d s IH]; [done|]. cbn [lstrip].
destruct (isspace d) eqn:Hd; [done|]. by intros [= -> _].
Qed.

Lemma strip_head s c u : strip s = c :: u → isspace c = false.
Proof.
unfold strip. destruct (lstrip s) as [|c0 t0] eqn:E; [done|].
pose proof (lstrip_head _ _ _ E) as Hc0. rewrite rstrip_cons.
destruct (rstrip t0); rewrite ?Hc0; by intros [= <- _].
Qed.

Lemma rstrip_last s :
  rstrip s = [] ∨ isspace (List.last (rstrip s) 0) = false.
Proof.
unfold rstrip. destruct (lstrip (rev s)) as [|d v] eqn:E; [by left|right].
cbn [rev]. rewrite last_last. by eapply lstrip_head.
Qed.

(** X10: whatever the bytes of a line, its published text neither begins
    nor ends with white space; stripping it again changes nothing. *)
Theorem X10_payload_is_stripped line :
  strip (line_payload line) = line_payload line
  ∧ (line_payload line = []
     ∨ (isspace (List.hd 0 (line_payload line)) = false
        ∧ isspace (List.last (line_payload line) 0) = false)).
Proof.
destruct (line_payload_spec line) as (s & _ & ->).
split; [apply strip_idem|].
destruct (strip s) as [|c u] eqn:E; [by left|right]. split.
- by eapply strip_head.
- rewrite <- E. unfold strip.
  destruct (rstrip_last (lstrip s)) as [Hn|Hl]; [|done].
  unfold strip in E. by rewrite Hn in E.
Qed.

(** X11: a blank line is not skipped: a line of ASCII white space only,
    such as a lone line feed, is published as a data message with empty
    text (and the descriptor after it when discovery is on). *)
Theorem X11_blank_line_is_published self rd line reads w :
  reader self = Some rd →
  line ≠ [] →
  Forall (λ b, ascii_byte b ∧ isspace (Byte.to_N b) = true) line →
  _read_loop utcnow_isoformat self (line :: reads) w
  = _read_loop utcnow_isoformat self reads
      (told (data_publish self [] (now w)
             :: (if enable_discovery (cfg self) then [discovery_publish self] else []))
         w).
Proof.
intros Hr Hne Hall. unfold _read_loop. rewrite Hr.
destruct line as [|b line]; [done|]. rewrite read_lines_line.
assert (line_payload (b :: line) = []) as ->; [|done].
rewrite line_payload_ascii by (eapply Forall_impl; [exact Hall|]; by intros ? [? _]).
unfold strip.
assert (lstrip (map Byte.to_N (b :: line)) = []) as ->; [|done].
induction Hall as [|x l (_ & Hx) _ IH]; [done|]. cbn [map lstrip]. rewrite Hx.
destruct l; [done|]. by apply IH.
Qed.

End ReaderMore.

(** ** Payloads and topics *)

Lemma json_nested_ind (P : json → Prop) :
  P JNone →
  (∀ s, P (JStr s)) →
  (∀ items, Forall P items → P (JList items)) →
  (∀ items, Forall (λ kv, P kv.2) items → P (JDict items)) →
  ∀ v, P v.
Proof.
intros HN HS HL HD. fix IH 1. intros [|s|items|items].
- exact HN.
- apply HS.
- apply HL. induction items as [|v items IHi]; constructor; [apply IH | exact IHi].
- apply HD. induction items as [|[k v] items IHi]; constructor; [apply IH | exact IHi].
Qed.

Lemma hexdigit_printable d : d < 16 → printable (hexdigit d).
Proof.
unfold hexdigit, printable. intros Hd.
destruct (N.ltb_spec d 10); lia.
Qed.

Lemma hex4_printable n : Forall printable (hex4 n).
Proof.
unfold hex4. repeat constructor; apply hexdigit_printable; by apply N.mod_lt.
Qed.

Lemma lit_printable_escape c : Forall printable (json_escape c).
Proof.
unfold json_escape.
repeat (case_match; [by repeat constructor|]).
case_match.
- constructor; [|constructor]. unfold printable. 
  match goal with H : _ && _ = true |- _ => apply andb_true_iff in H as [?%N.leb_le ?%N.leb_le] end.
  lia.
- case_match.
  + apply Forall_app. split; [by repeat constructor | apply hex4_printable].
  + repeat (apply Forall_app; split); try apply hex4_printable; by repeat constructor.
Qed.

Lemma json_string_printable s : Forall printable (json_string s).
Proof.
unfold json_string. apply Forall_app. split; [by repeat constructor|].
apply Forall_app. split; [|by repeat constructor].
induction s as [|c s IH]; [constructor|].
cbn [flat_map]. apply Forall_app. split; [apply lit_printable_escape | exact IH].
Qed.

Lemma join_printable sep parts :
  Forall printable sep → Forall (Forall printable) parts → Forall printable (join sep parts).
Proof.
intros Hsep Hparts. induction Hparts as [|p ps Hp Hps IH]; [constructor|].
destruct ps as [|q ps]; [done|].
change (join sep (p :: q :: ps)) with (p ++ sep ++ join sep (q :: ps)).
repeat (apply Forall_app; split); done.
Qed.

Lemma json_dumps_printable v : Forall printable (json_dumps v).
Proof.
induction v as [|s|items IH|items IH] using json_nested_ind.
- by repeat constructor.
- apply json_string_printable.
- cbn [json_dumps]. repeat (apply Forall_app; split); try by repeat constructor.
  apply join_printable; [by repeat constructor|].
  induction IH; constructor; done.
- cbn [json_dumps]. repeat (apply Forall_app; split); try by repeat constructor.
  apply join_printable; [by repeat constructor|].
  induction IH as [|[k v] items Hv _ IHi]; constructor; [|done].
  cbn [fst snd] in *. apply Forall_app. split; [apply json_string_printable|].
  apply Forall_app. split; [by repeat constructor | done].
Qed.

(** X12: every payload handed to the bus is printable ASCII, whatever the
    device path, the bytes of the line, the failure message or the time
    stamp: control characters, quotes and everything outside ASCII leave
    only as escapes. *)
Theorem X12_payloads_are_printable_ascii self state error data ts :
  Forall printable (payload (status_publish self state error ts))
  ∧ Forall printable (payload (data_publish self data ts))
  ∧ Forall printable (payload (discovery_publish self)).
Proof. repeat split; apply json_dumps_printable. Qed.

Lemma replace_not_elem old new s : old ≠ new → old ∉ replace old new s.
Proof.
intros Hne. unfold replace. rewrite list_elem_of_fmap. intros (c & Heq & _).
destruct (N.eqb_spec c old); congruence.
Qed.

(** X13: the slug is as long as the device path and holds neither a slash
    nor a backslash, so that each of the three topics of a device has the
    slug as one level: the status and data topics have two slashes, the
    descriptor topic as many as the discovery prefix and four more. *)
Theorem X13_slug_is_one_level self :
  length (_slug self) = length (device self)
  ∧ (0x2F ∉ _slug self)
  ∧ (0x5C ∉ _slug self)
  ∧ length (filter (λ c : N, c = 0x2F) (status_topic self)) = 2%nat
  ∧ length (filter (λ c : N, c = 0x2F) (data_topic self)) = 2%nat
  ∧ length (filter (λ c : N, c = 0x2F) (discovery_topic self))
    = Nat.add (length (filter (λ c : N, c = 0x2F) (discovery_prefix (cfg self)))) 4%nat.
Proof.
assert (0x2F ∉ _slug self) as Hs.
{ rewrite _slug_spec. unfold spec_slug. rewrite list_elem_of_fmap.
  intros (c & Heq & _).
  destruct (c =? 0x2F) eqn:E1; destruct (c =? 0x5C) eqn:E2; cbn in Heq; try done.
  apply N.eqb_neq in E1. congruence. }
assert (filter (λ c : N, c = 0x2F) (_slug self) = []) as Hf.
{ induction (_slug self) as [|c l IH]; [done|].
  rewrite filter_cons_False; [apply IH|]; set_solver. }
split; [|split; [done|split; [by apply replace_not_elem|]]].
- unfold _slug, replace. by rewrite !length_map.
- unfold status_topic, data_topic, discovery_topic.
  rewrite !filter_app, Hf, !length_app.
  change (length (filter (λ c : N, c = 0x2F) (lit "multi_serial/"))) with 1%nat.
  change (length (filter (λ c : N, c = 0x2F) (lit "/status"))) with 1%nat.
  change (length (filter (λ c : N, c = 0x2F) (lit "/data"))) with 1%nat.
  change (length (filter (λ c : N, c = 0x2F) (lit "/sensor/"))) with 2%nat.
  change (length (filter (λ c : N, c = 0x2F) (lit "/last"))) with 1%nat.
  change (length (filter (λ c : N, c = 0x2F) (lit "/config"))) with 1%nat.
  cbn [length]. repeat split; lia.
Qed.

(** ** More on the reconciliation loop *)

Lemma preserves_bind {S A B} (I : S → Prop) (m : M S A) (f : A → M S B) :
  preserves I m → (∀ a, preserves I (f a)) → preserves I (m ≫= f).
Proof.
intros Hm Hf s Hs. unfold mbind, M_bind. specialize (Hm s Hs).
destruct (m s) as [[a|e] s1]; [by apply Hf | done].
Qed.

Lemma preserves_ret {S A} (I : S → Prop) (a : A) : preserves I (mret a : M S A).
Proof. by intros s Hs. Qed.

Lemma preserves_gets {S A} (I : S → Prop) (f : S → A) : preserves I (gets f).
Proof. by intros s Hs. Qed.

Lemma preserves_gets_bind {S A B} (I : S → Prop) (g : S → A) (f : A → M S B) :
  (∀ s, I s → I (f (g s) s).2) → preserves I (gets g ≫= f).
Proof. intros H s Hs. by apply H. Qed.

Lemma preserves_lift {S A} (I : S → Prop) (r : Res A) : preserves I (lift r : M S A).
Proof. by intros s Hs. Qed.

Lemma preserves_for_each {S A} (I : S → Prop) (body : A → M S unit) l :
  (∀ x, x ∈ l → preserves I (body x)) → preserves I (for_each l body).
Proof.
induction l as [|x l IH]; intros Hb; [apply preserves_ret|].
cbn [for_each]. apply preserves_bind; [apply Hb; left|].
intros _. apply IH. intros y Hy. apply Hb. by right.
Qed.

Section LoopMore.

Context (fnmatch : str → str → bool) (set_iter : gset str → list str).
Context (utcnow_isoformat : nat → str).

Lemma start_same_device self conn w r w' :
  start utcnow_isoformat self conn w = (Ret r, w') →
  device r = device self ∧ cfg r = cfg self ∧ topic_prefix r = topic_prefix self.
Proof.
destruct self as [d p c rd wr t]. unfold start.
destruct conn as [[sr sw]|e].
- unfold mbind, M_bind. rewrite _publish_status_eq. unfold lift, probe, mret, M_ret.
  cbn -[utf8_encode]. destruct (probe_command c); cbn -[utf8_encode].
  + intros ?. by simplify_eq/=.
  + repeat case_match; cbn; intros ?; by simplify_eq/=.
- destruct (isinstance_Exception e); [|done].
  unfold mbind, M_bind, mret, M_ret. rewrite _publish_status_eq.
  intros ?. by simplify_eq/=.
Qed.

Lemma run_task_same_device self reads w :
  ∃ r w', run_task utcnow_isoformat self reads w = (Ret r, w')
          ∧ device r = device self ∧ cfg r = cfg self
          ∧ topic_prefix r = topic_prefix self
          ∧ reader r = reader self ∧ writer r = writer self.
Proof.
unfold run_task. destruct (task self) as [[]|] eqn:Ht;
  try (by eexists _, _).
destruct (_read_loop _ _ _ _) as [[[]|e] w']; eexists _, _; by destruct self.
Qed.

Lemma stop_same_device self :
  device (stop self).2 = device self ∧ cfg (stop self).2 = cfg self
  ∧ topic_prefix (stop self).2 = topic_prefix self.
Proof.
destruct self as [d p c rd [[[] wn de [e|]]|] [[]|]]; try destruct e; done.
Qed.

Lemma well_filed_insert settings s d r :
  well_filed settings s →
  device r = d → cfg r = settings → topic_prefix r = lit "multi_serial" →
  well_filed settings (set_readers (insert d r) s).
Proof.
intros Hs Hd Hc Hp k r'. cbn. rewrite lookup_insert.
case_decide; [intros [= <-]; by subst | apply Hs].
Qed.

Lemma tick_well_filed settings env :
  preserves (well_filed settings) (tick fnmatch set_iter utcnow_isoformat settings env).
Proof.
unfold tick. apply preserves_bind; [apply preserves_lift|]. intros ports.
apply preserves_bind; [apply preserves_gets|]. intros rs.
apply preserves_bind.
- apply preserves_for_each. intros dev _ s Hs.
  unfold stop_removed, pop, mbind, M_bind.
  destruct (readers s !! dev) as [r|] eqn:Hr; [|done]. cbn.
  assert (well_filed settings (set_readers (delete dev) s)) as Hd.
  { intros k r'. cbn. rewrite lookup_delete. case_decide; [done | apply Hs]. }
  destruct (stop r).1; apply Hd.
- intros _. apply preserves_bind; [apply preserves_gets|]. intros rs'.
  apply preserves_for_each. intros dev _ s Hs.
  unfold start_new, log, store, in_world, mbind, M_bind, modify. cbn.
  destruct (start _ _ _ _) as [[r|e] w'] eqn:Hstart; cbn.
  + apply start_same_device in Hstart as (Hd & Hc & Hp).
    intros k r'. cbn. rewrite insert_insert_eq, lookup_insert.
    case_decide; [intros [= <-]; by subst | apply Hs].
  + intros k r'. cbn. rewrite lookup_insert.
    case_decide; [intros [= <-]; by subst | apply Hs].
Qed.

Lemma sleep_well_filed settings env :
  preserves (well_filed settings) (sleep set_iter utcnow_isoformat env).
Proof.
unfold sleep. apply preserves_gets_bind. intros s Hs.
apply (preserves_for_each (well_filed settings)); [|done].
intros dev _ s2 Hs2. destruct (readers s !! dev) as [r|] eqn:Hr; [|done].
destruct (Hs dev r Hr) as (Hd & Hc & Hp).
unfold mbind, M_bind, in_world, store, modify.
destruct (run_task_same_device r (incoming env dev) (world s2))
  as (r' & w' & -> & Hd' & Hc' & Hp' & _). cbn.
apply (well_filed_insert settings
         {| readers := readers s2; world := w'; calls := calls s2 |});
  [exact Hs2 | congruence..].
Qed.

Lemma loop_well_filed settings envs :
  preserves (well_filed settings) (loop fnmatch set_iter utcnow_isoformat settings envs).
Proof.
induction envs as [|env envs IH]; [apply preserves_ret|].
cbn [loop]. apply preserves_bind; [apply tick_well_filed|]. intros _.
apply preserves_bind; [apply sleep_well_filed|]. by intros _.
Qed.

Lemma shutdown_well_filed settings :
  preserves (well_filed settings) (shutdown set_iter).
Proof.
unfold shutdown. apply preserves_gets_bind. intros s Hs.
apply (preserves_bind (well_filed settings)); [| |done].
- apply preserves_for_each. intros dev _ s2 Hs2.
  destruct (readers s !! dev) as [r|] eqn:Hr; [|done].
  destruct (Hs dev r Hr) as (Hd & Hc & Hp).
  destruct (stop_same_device r) as (Hd' & Hc' & Hp').
  apply preserves_bind; [|intros _; apply preserves_lift|done].
  intros s3 Hs3. apply well_filed_insert; [exact Hs3 | congruence..].
- by intros _ s2 Hs2.
Qed.

(** X14: at every moment of every run, each managed reader is filed under
    its own device path and carries the settings and the topic prefix of
    the loop: no pass, sleep or shutdown files a reader under another
    path. *)
Theorem X14_readers_filed_under_their_path settings envs :
  well_filed settings (run fnmatch set_iter utcnow_isoformat settings envs).2.
Proof.
assert (well_filed settings
          (main_async fnmatch set_iter utcnow_isoformat settings envs initial).2) as H.
{ unfold main_async.
  pose proof (loop_well_filed settings envs initial) as Hl.
  destruct (loop _ _ _ _ _ _) as [[[]|e] s1]; cbn in *.
  - by apply Hl.
  - unfold try_finally, raise.
    pose proof (shutdown_well_filed settings s1 (Hl ltac:(done))) as Hsd.
    by destruct (shutdown set_iter s1) as [[[]|e'] s2]. }
unfold run. by destruct (main_async _ _ _ _ _ _) as [[[]|[]] s1].
Qed.

End LoopMore.

Section LoopPublishes.

Context (fnmatch : str → str → bool) (set_iter : gset str → list str).
Context (utcnow_isoformat : nat → str).
Hypothesis set_iter_perm : ∀ X, set_iter X ≡ₚ elements X.




Lemma sleep_spec env s :
  ∃ s', sleep set_iter utcnow_isoformat env s = (Ret tt, s')
        ∧ dom (readers s') = dom (readers s)
        ∧ calls s' = calls s.
Proof.
unfold sleep. unfold mbind at 1, M_bind at 1, gets at 1.
assert (∀ l s1, dom (readers s1) = dom (readers s) →
  ∃ s', for_each l (λ dev,
          match readers s !! dev with
          | Some r => r' ← in_world (run_task utcnow_isoformat r (incoming env dev));
                      store dev r'
          | None => mret tt
          end) s1 = (Ret tt, s')
        ∧ dom (readers s') = dom (readers s) ∧ calls s' = calls s1) as Hloop.
{ induction l as [|d l IH]; intros s1 Hd1; [by exists s1|].
  cbn [for_each]. unfold mbind at 1, M_bind at 1.
  destruct (readers s !! d) as [r|] eqn:Hr.
  - destruct (run_task_same_device utcnow_isoformat r (incoming env d) (world s1))
      as (r' & w' & Hrun & _).
    set (s2 := set_readers (insert d r')
                 {| readers := readers s1; world := w'; calls := calls s1 |}).
    assert ((in_world (run_task utcnow_isoformat r (incoming env d))
             ≫= λ r', store d r') s1 = (Ret tt, s2)) as ->.
    { unfold mbind, M_bind, in_world. by rewrite Hrun. }
    destruct (IH s2) as (s' & Hrun' & Hd' & Hc').
    { cbn. rewrite dom_insert_L, Hd1.
      assert (d ∈ dom (readers s)) by (apply elem_of_dom; by eexists). set_solver. }
    exists s'. by rewrite Hrun'.
  - apply IH. done. }
by apply Hloop.
Qed.

(** X16: whenever the loop has completed a pass, the managed devices are
    exactly the candidates of that pass's listing: neither the sleep nor
    the tasks that run during it add or remove a reader. *)
Theorem X16_loop_manages_the_candidates cfg envs env s s' :
  loop fnmatch set_iter utcnow_isoformat cfg (envs ++ [env]) s = (Ret tt, s') →
  ∃ ports,
    list_candidate_ports fnmatch set_iter cfg (comports env) = Ret ports
    ∧ dom (readers s') = list_to_set ports.
Proof.
rewrite loop_app. unfold mbind at 1, M_bind at 1.
destruct (loop _ _ _ _ envs s) as [[[]|e] s1]; [|done].
cbn [loop]. unfold mbind at 1, M_bind at 1.
destruct (list_candidate_ports fnmatch set_iter cfg (comports env)) as [ports|e] eqn:Hp.
- destruct (tick_spec fnmatch set_iter utcnow_isoformat set_iter_perm cfg env s1 ports Hp)
    as (r & s2 & stopped & created & Htick & _ & _ & _ & _ & _ & _ & Hret & _).
  rewrite Htick. destruct r as [[]|e]; [|done].
  destruct (Hret eq_refl) as (Hdom & _).
  destruct (sleep_spec env s2) as (s3 & Hsleep & Hd3 & _).
  unfold mbind, M_bind. rewrite Hsleep. unfold mret, M_ret. intros [= <-].
  exists ports. split; [done|]. by rewrite Hd3.
- unfold tick. unfold mbind at 1, M_bind at 1, lift at 1. by rewrite Hp.
Qed.

End LoopPublishes.

Section Shutdown.

Context (set_iter : gset str → list str).
Hypothesis set_iter_perm : ∀ X, set_iter X ≡ₚ elements X.

(** The loop of the [finally] clause over the readers [rs] it started
    from: it stops the devices of its list in order, keeps each stopped
    reader in the dictionary as [stop()] left it, and ends at the first
    [stop()] that raises. *)
Lemma shutdown_loop (rs : gmap str SerialReader) l s1 :
  NoDup l →
  (∀ d, d ∈ l → is_Some (rs !! d)) →
  ∃ r s',
    for_each l (λ dev,
      match rs !! dev with
      | Some r => store dev (stop r).2;; lift (stop r).1
      | None => mret tt
      end) s1 = (r, s')
    ∧ world s' = world s1
    ∧ ((∀ d rd, d ∈ l → rs !! d = Some rd → (stop rd).1 = Ret tt) →
       r = Ret tt
       ∧ ∀ k, readers s' !! k
              = if decide (k ∈ l) then (λ x, (stop x).2) <$> rs !! k
                else readers s1 !! k)
    ∧ ((∃ d rd, d ∈ l ∧ rs !! d = Some rd ∧ (stop rd).1 ≠ Ret tt) →
       ∃ e, r = Raise e).
Proof.
intros Hnd. revert s1. induction Hnd as [|d l Hd Hnd IH]; intros s1 Hsome.
- exists (Ret tt), s1. split; [done|]. split; [done|]. split.
  + intros _. split; [done|]. intros k. by rewrite decide_False by set_solver.
  + by intros (d & rd & Hd%elem_of_nil & _).
- destruct (Hsome d) as [rd Hrd]; [left|].
  cbn [for_each]. unfold mbind at 1, M_bind at 1. rewrite Hrd.
  set (s2 := set_readers (insert d (stop rd).2) s1).
  assert ((store d (stop rd).2;; lift (stop rd).1) s1 = ((stop rd).1, s2)) as -> by done.
  destruct (stop rd).1 as [[]|e] eqn:Hstop.
  + destruct (IH s2) as (r & s' & Hrun & Hw & Hok & Hbad).
    { intros d' Hd'. apply Hsome. by right. }
    exists r, s'. split; [done|]. split; [done|]. split.
    * intros Hall. destruct Hok as (-> & Hrs).
      { intros d' rd' Hd' Hrd'. apply (Hall d' rd'); [by right | done]. }
      split; [done|]. intros k. rewrite Hrs. destruct (decide (k = d)) as [->|Hne].
      -- rewrite decide_False by done. rewrite decide_True by left.
         cbn. by rewrite lookup_insert_eq, Hrd.
      -- cbn. rewrite lookup_insert_ne by done.
         destruct (decide (k ∈ l)).
         ++ rewrite decide_True; [done | by right].
         ++ rewrite decide_False; [done | set_solver].
    * intros (d' & rd' & Hd' & Hrd' & Hne). apply Hbad.
      apply elem_of_cons in Hd' as [->|Hd'].
      -- by simplify_eq.
      -- by exists d', rd'.
  + exists (Raise e), s2. split; [done|]. split; [done|]. split.
    * intros Hall. specialize (Hall d rd ltac:(left) Hrd). congruence.
    * intros _. by exists e.
Qed.

(** X17: when no [stop()] of the [finally] clause raises, the clause
    leaves every managed reader released: its task has ended, its writer,
    if it has one, is closing, and the bus client is disconnected; each
    reader is as its own [stop()] left it. *)
Theorem X17_shutdown_releases_every_reader s :
  (∀ d rd, readers s !! d = Some rd → (stop rd).1 = Ret tt) →
  ∃ s',
    shutdown set_iter s = (Ret tt, s')
    ∧ readers s' = (λ rd, (stop rd).2) <$> readers s
    ∧ connected (world s') = false
    ∧ bus (world s') = bus (world s)
    ∧ ∀ d rd', readers s' !! d = Some rd' →
        (∀ t, task rd' = Some t → done t = true)
        ∧ (∀ wr, writer rd' = Some wr → is_closing wr = true).
Proof.
intros Hall. unfold shutdown. unfold mbind at 1, M_bind at 1, gets at 1.
destruct (shutdown_loop (readers s) (set_iter (dom (readers s))) s)
  as (r & s1 & Hrun & Hw & Hok & _).
{ rewrite set_iter_perm. apply NoDup_elements. }
{ intros d Hd. apply elem_of_dom. by rewrite set_iter_perm, elem_of_elements in Hd. }
destruct Hok as (-> & Hrs); [by intros d rd _; apply Hall|].
unfold mbind at 1, M_bind at 1. rewrite Hrun.
eexists. split; [reflexivity|]. cbn. rewrite Hw.
assert (readers s1 = (λ rd, (stop rd).2) <$> readers s) as Heq.
{ apply map_eq. intros k. rewrite Hrs, lookup_fmap. case_decide as Hk; [done|].
  rewrite set_iter_perm, elem_of_elements, not_elem_of_dom in Hk. by rewrite Hk. }
split; [done|]. split; [done|]. split; [done|].
intros d rd'. rewrite Heq, lookup_fmap. intros Hrd.
destruct (readers s !! d) as [rd|] eqn:Hd; [|done]. cbn in Hrd. simplify_eq.
pose proof (Hall d rd Hd) as Hstop.
destruct (stop rd) as [r0 rd0] eqn:Hs. cbn in *. subst r0.
by destruct (stop_returns_idempotent rd rd0 Hs) as (? & ? & _).
Qed.

(** X18: when a managed reader is still reading, the [finally] clause does
    not complete: a [stop()] raises out of it, and the bus client is
    neither stopped nor disconnected. *)
Theorem X18_shutdown_with_live_reader_raises s d rd :
  readers s !! d = Some rd →
  task rd = Some Pending →
  ∃ e s',
    shutdown set_iter s = (Raise e, s')
    ∧ world s' = world s.
Proof.
intros Hd Ht. unfold shutdown. unfold mbind at 1, M_bind at 1, gets at 1.
destruct (shutdown_loop (readers s) (set_iter (dom (readers s))) s)
  as (r & s1 & Hrun & Hw & _ & Hbad).
{ rewrite set_iter_perm. apply NoDup_elements. }
{ intros k Hk. apply elem_of_dom. by rewrite set_iter_perm, elem_of_elements in Hk. }
destruct Hbad as [e ->].
{ exists d, rd. split; [|split; [done|]].
  - rewrite set_iter_perm, elem_of_elements. apply elem_of_dom. by eexists.
  - destruct rd as [dv p c r0 wr t]. cbn in Ht. by subst t. }
unfold mbind at 1, M_bind at 1. rewrite Hrun. by exists e, s1.
Qed.

End Shutdown.

(** X19: whenever [stop()] returns, the task of the reader has ended and
    its writer, if any, is closing; a second [stop()] then returns at once
    and changes nothing. *)
Theorem X19_stop_that_returns_is_idempotent self self' :
  stop self = (Ret tt, self') →
  (∀ t, task self' = Some t → done t = true)
  ∧ (∀ wr, writer self' = Some wr → is_closing wr = true)
  ∧ stop self' = (Ret tt, self').
Proof. apply stop_returns_idempotent. Qed.

(** ** The demonstration harness *)


Lemma starts_with_needle_prefix a b h :
  starts_with (a ++ b) h = true → starts_with a h = true.
Proof.
revert h. induction a as [|x a IH]; intros h; [done|].
destruct h as [|y h]; [done|]. cbn [app starts_with].
rewrite !andb_true_iff. intros [? ?]. split; [done | by apply IH].
Qed.

Lemma contains_needle_prefix a b h :
  contains (a ++ b) h = true → contains a h = true.
Proof.
induction h as [|y h IH]; cbn [contains]; rewrite !orb_true_iff.
- intros [H|?]; [left; by eapply starts_with_needle_prefix | done].
- intros [H|H]; [left; by eapply starts_with_needle_prefix | right; by apply IH].
Qed.

Lemma starts_with_hay_app n h b :
  starts_with n h = true → starts_with n (h ++ b) = true.
Proof.
revert h. induction n as [|x n IH]; intros h; [done|].
destruct h as [|y h]; [done|]. cbn [app starts_with].
rewrite !andb_true_iff. intros [? ?]. split; [done | by apply IH].
Qed.

Lemma contains_nil n : contains n [] = true → n = [].
Proof. by destruct n. Qed.

Lemma contains_hay_app_r n h b : contains n h = true → contains n (h ++ b) = true.
Proof.
induction h as [|y h IH].
- intros ->%contains_nil. by destruct b.
- cbn [app contains]. rewrite !orb_true_iff.
  intros [H|H]; [left; by apply (starts_with_hay_app n (y :: h)) | right; by apply IH].
Qed.

Lemma contains_hay_app_l n a h : contains n h = true → contains n (a ++ h) = true.
Proof.
intros H. induction a as [|x a IH]; [done|].
cbn [app contains]. rewrite IH. apply orb_true_r.
Qed.

Lemma upper_byte_idem b : upper_byte (upper_byte b) = upper_byte b.
Proof. by destruct b. Qed.

Lemma upper_lower_byte b : upper_byte (lower_byte b) = upper_byte b.
Proof. by destruct b. Qed.

Lemma orb_absorb (x y : bool) : (x = true → y = true) → x || y = y.
Proof. destruct x, y; intros H; try done. by specialize (H eq_refl). Qed.

(** The verdict in terms of the upper-cased response: an earlier family
    wins over a later one, and three of the fifteen patterns never
    decide. *)
Lemma detect_spec response :
  _detect_device_type_from_response response
  = if holds response "BLE" || holds response "BLUETOOTH" || holds response "BT_" then BLE
    else if holds response "ZIG" || holds response "COORDINATOR" || holds response "ZHA_" then ZIGBEE
    else if holds response "ZWAVE" || holds response "ZW_" || holds response "CONTROLLER" then ZWAVE
    else if holds response "MATTER" || holds response "FABRIC" || holds response "MT_" then MATTER
    else UNKNOWN.
Proof.
unfold _detect_device_type_from_response, device_patterns.
set (U := upper response). cbn [detect_in existsb].
change (upper (blit "BLE")) with (blit "BLE").
change (upper (blit "BLUETOOTH")) with (blit "BLUETOOTH").
change (upper (blit "BT_")) with (blit "BT_").
change (upper (blit "ZIGBEE")) with (blit "ZIG" ++ blit "BEE").
change (upper (blit "ZIG")) with (blit "ZIG").
change (upper (blit "COORDINATOR")) with (blit "COORDINATOR").
change (upper (blit "ZHA_")) with (blit "ZHA_").
change (upper (blit "ZWAVE")) with (blit "ZWAVE").
change (upper (blit "ZW_")) with (blit "ZW_").
change (upper (blit "CONTROLLER")) with (blit "CONTROLLER").
change (upper (blit "MATTER")) with (blit "MATTER").
change (upper (blit "FABRIC")) with (blit "FABRIC").
change (upper (blit "MT_")) with (blit "MT_").
change (upper (blit "MATTER_")) with (blit "MATTER" ++ blit "_").
rewrite !orb_false_r.
rewrite (orb_assoc (contains (blit "ZIG" ++ blit "BEE") U)).
rewrite (orb_absorb (contains (blit "ZIG" ++ blit "BEE") U) (contains (blit "ZIG") U))
  by apply contains_needle_prefix.
assert (contains (blit "ZW_") U || (contains (blit "CONTROLLER") U || contains (blit "ZW_") U)
        = contains (blit "ZW_") U || contains (blit "CONTROLLER") U) as ->.
{ by destruct (contains (blit "ZW_") U), (contains (blit "CONTROLLER") U). }
assert (contains (blit "MATTER") U
        || (contains (blit "FABRIC") U
            || (contains (blit "MT_") U || contains (blit "MATTER" ++ blit "_") U))
        = contains (blit "MATTER") U
          || (contains (blit "FABRIC") U || contains (blit "MT_") U)) as ->.
{ pose proof (contains_needle_prefix (blit "MATTER") (blit "_") U).
  destruct (contains (blit "MATTER") U), (contains (blit "FABRIC") U),
    (contains (blit "MT_") U), (contains (blit "MATTER" ++ blit "_") U); try done.
  by discriminate H. }
unfold holds. fold U. rewrite <- !orb_assoc. done.
Qed.

(** X20: the device type is decided by the upper-cased response alone, the
    families being tried in the order BLE, Zigbee, Z-Wave, Matter: BLE if
    it holds [BLE], [BLUETOOTH] or [BT_]; else Zigbee if it holds [ZIG],
    [COORDINATOR] or [ZHA_]; else Z-Wave if it holds [ZWAVE], [ZW_] or
    [CONTROLLER]; else Matter if it holds [MATTER], [FABRIC] or [MT_]; else
    unknown.  The verdict is never [CUSTOM]. *)
Theorem X20_device_type_by_priority response :
  _detect_device_type_from_response response
  = (if holds response "BLE" || holds response "BLUETOOTH" || holds response "BT_" then BLE
     else if holds response "ZIG" || holds response "COORDINATOR" || holds response "ZHA_" then ZIGBEE
     else if holds response "ZWAVE" || holds response "ZW_" || holds response "CONTROLLER" then ZWAVE
     else if holds response "MATTER" || holds response "FABRIC" || holds response "MT_" then MATTER
     else UNKNOWN)
  ∧ _detect_device_type_from_response response ≠ CUSTOM.
Proof.
pose proof (detect_spec response) as H.
split; [exact H|]. rewrite H. by repeat case_match.
Qed.

(** X21: the verdict does not depend on the case of the ASCII letters of
    the response, and a BLE verdict survives any bytes before and after
    the response. *)
Theorem X21_device_type_case_and_context response :
  _detect_device_type_from_response (upper response)
  = _detect_device_type_from_response response
  ∧ _detect_device_type_from_response (lower response)
    = _detect_device_type_from_response response
  ∧ (_detect_device_type_from_response response = BLE →
     ∀ before after,
       _detect_device_type_from_response (before ++ response ++ after) = BLE).
Proof.
assert (upper (upper response) = upper response) as Hu.
{ unfold upper. rewrite map_map. apply map_ext, upper_byte_idem. }
assert (upper (lower response) = upper response) as Hl.
{ unfold upper, lower. rewrite map_map. apply map_ext, upper_lower_byte. }
split; [|split].
- unfold _detect_device_type_from_response. by rewrite Hu.
- unfold _detect_device_type_from_response. by rewrite Hl.
- intros Hble before after. rewrite detect_spec in *. cbn zeta in *.
  assert (∀ p, holds response p = true →
            holds (before ++ response ++ after) p = true) as Hctx.
  { intros p Hp. unfold holds, upper in *. rewrite !map_app.
    by apply contains_hay_app_l, contains_hay_app_r. }
  destruct (holds response "BLE" || holds response "BLUETOOTH"
            || holds response "BT_") eqn:E.
  + apply orb_true_iff in E as [E|E]; [apply orb_true_iff in E as [E|E]|];
      apply Hctx in E; rewrite E; by rewrite ?orb_true_r.
  + by repeat case_match.
Qed.

Lemma dict_has_app {A} k (m extra : list (str * A)) :
  dict_has k m = true → dict_has k (m ++ extra) = true.
Proof.
unfold dict_has. rewrite !bool_decide_eq_true, map_app. set_solver.
Qed.

(** X22: the status and data messages that the add-on publishes pass the
    harness's format check for their type, whatever they carry; its
    descriptor does not pass as a [discovery] message; a message type other
    than the three known ones never passes; and keys beyond the required
    ones never make a valid message invalid. *)
Theorem X22_published_messages_validate self state error data ts :
  _validate_message_format (dict_items (status_msg self state error ts)) (lit "status")
  = true
  ∧ _validate_message_format (dict_items (data_msg self data ts)) (lit "data") = true
  ∧ _validate_message_format (dict_items (discovery_config self)) (lit "discovery")
    = false
  ∧ (∀ message message_type,
       message_type ∉ [lit "discovery"; lit "status"; lit "data"] →
       _validate_message_format message message_type = false)
  ∧ (∀ message extra message_type,
       _validate_message_format message message_type = true →
       _validate_message_format (message ++ extra) message_type = true).
Proof.
split; [by vm_compute|]. split; [by vm_compute|]. split; [by vm_compute|]. split.
- intros message message_type Hn. unfold _validate_message_format, dict_get, required_fields.
  cbn [List.find fst]. 
  repeat (case_bool_decide; [exfalso; apply Hn; subst; set_solver|]). done.
- intros message extra message_type. unfold _validate_message_format.
  destruct (dict_get message_type required_fields) as [fields|]; [|done].
  rewrite !forallb_forall. intros H f Hf. by apply dict_has_app, H.
Qed.

(** X23: the harness filters ports as the add-on does: the candidates of
    the add-on are the device paths of the ports that [_filter_ports]
    keeps, sorted and without duplicates; and [_filter_ports] keeps the
    ports in the order of the listing. *)
Theorem X23_filter_ports_agrees fnmatch set_iter cfg ports :
  list_candidate_ports fnmatch set_iter cfg (Ret (map port_device ports))
  = Ret (sorted (set_iter (list_to_set
           (map port_device
              (_filter_ports fnmatch ports (include_patterns cfg)
                 (exclude_patterns cfg))))))
  ∧ sublist (_filter_ports fnmatch ports (include_patterns cfg) (exclude_patterns cfg))
      ports.
Proof.
split.
- cbn [list_candidate_ports]. do 4 f_equal. unfold _filter_ports.
  induction ports as [|p ports IH]; [done|]. cbn [map List.filter].
  destruct (matches fnmatch (port_device p) (include_patterns cfg)
            && negb (matches fnmatch (port_device p) (exclude_patterns cfg)));
    cbn [map]; by rewrite IH.
- unfold _filter_ports. induction ports as [|p ports IH]; [done|]. cbn [List.filter].
  case_match; [by apply sublist_skip | by apply sublist_cons].
Qed.

(** ** The codec, both ways *)

Ltac nlia := zify; Z.to_euclidean_division_equations; lia.

Lemma lor_add a b k : a mod 2 ^ k = 0 → b < 2 ^ k → N.lor a b = a + b.
Proof.
intros Ha Hb.
assert (N.land a b = 0) as Hland.
{ apply N.bits_inj. intros m. rewrite N.land_spec, N.bits_0.
  destruct (N.lt_ge_cases m k) as [Hm|Hm].
  - assert (N.testbit a m = false) as ->; [|done].
    rewrite (N.div_mod a (2 ^ k)) by (apply N.pow_nonzero; lia).
    rewrite Ha, N.add_0_r, N.mul_comm. by apply N.mul_pow2_bits_low.
  - assert (N.testbit b m = false) as ->; [|apply andb_false_r].
    rewrite <- (N.mod_small b (2 ^ k)) by done. by apply N.mod_pow2_bits_high. }
by rewrite N.add_nocarry_lxor, N.lxor_lor.
Qed.

Lemma low6_mod c : low6 c = c mod 64.
Proof. unfold low6. change 0x3F with (N.ones 6). by rewrite N.land_ones. Qed.

Lemma mapM_of_N_to_N ns bs :
  mapM Byte.of_N ns = Some bs → map Byte.to_N bs = ns.
Proof.
rewrite mapM_Some. induction 1 as [|n b ns bs Hb _ IH]; [done|].
cbn [map]. f_equal; [by apply Byte.to_of_N | exact IH].
Qed.

Ltac decide_comparisons :=
  repeat (match goal with
          | |- context [?a <? ?b] =>
            destruct (N.ltb_spec a b); try (exfalso; nlia)
          | |- context [?a <=? ?b] =>
            destruct (N.leb_spec a b); try (exfalso; nlia)
          | |- context [?a =? ?b] =>
            destruct (N.eqb_spec a b); try (exfalso; nlia)
          end; cbn [negb andb orb]).

(** The bytes of one encoded character decode to that character, whatever
    follows them. *)
Lemma utf8_decode_encode1 errors c bs rest :
  ((0xD800 <=? c) && (c <=? 0xDFFF)) || (0x10FFFF <? c) = false →
  mapM Byte.of_N (utf8_encode1 c) = Some bs →
  utf8_decode errors (bs ++ rest) = emit c (utf8_decode errors rest).
Proof.
intros Hvalid Henc. apply mapM_of_N_to_N in Henc.
apply orb_false_iff in Hvalid as [Hsur Hmax]. apply N.ltb_ge in Hmax.
assert (¬ (0xD800 ≤ c ∧ c ≤ 0xDFFF)) as Hsur'.
{ intros [?%N.leb_le ?%N.leb_le]. by rewrite andb_true_intro in Hsur. }
clear Hsur.
unfold utf8_encode1 in Henc.
rewrite !low6_mod, !N.shiftr_div_pow2 in Henc.
change (2 ^ 6) with 64 in Henc. change (2 ^ 12) with 4096 in Henc.
change (2 ^ 18) with 262144 in Henc.
destruct (N.ltb_spec c 0x80) as [H1|H1].
{ destruct bs as [|b1 [|]]; try done. cbn in Henc. simplify_eq.
  cbn [app utf8_decode]. apply N.ltb_lt in H1. by rewrite H1. }
destruct (N.ltb_spec c 0x800) as [H2|H2].
{ destruct bs as [|b1 [|b2 [|]]]; try done. cbn [map] in Henc.
  injection Henc as Hb1 Hb2.
  rewrite (lor_add 0xC0 (c / 64) 6) in Hb1 by (cbn; nlia || done).
  rewrite (lor_add 0x80 (c mod 64) 6) in Hb2 by (cbn; nlia || done).
  cbn [app utf8_decode]. rewrite Hb1, Hb2. unfold is_continuation.
  decide_comparisons. f_equal.
  rewrite low6_mod, N.shiftl_mul_pow2. change 0x1F with (N.ones 5).
  rewrite N.land_ones. change (2 ^ 5) with 32. change (2 ^ 6) with 64.
  rewrite (lor_add _ _ 6) by (cbn; nlia). nlia. }
destruct (N.ltb_spec c 0x10000) as [H3|H3].
{ destruct bs as [|b1 [|b2 [|b3 [|]]]]; try done. cbn [map] in Henc.
  injection Henc as Hb1 Hb2 Hb3.
  rewrite (lor_add 0xE0 (c / 4096) 4) in Hb1 by (cbn; nlia || done).
  rewrite (lor_add 0x80 (c / 64 mod 64) 6) in Hb2 by (cbn; nlia || done).
  rewrite (lor_add 0x80 (c mod 64) 6) in Hb3 by (cbn; nlia || done).
  cbn [app utf8_decode]. rewrite Hb1, Hb2, Hb3. unfold is_continuation.
  decide_comparisons; f_equal;
    rewrite !low6_mod, !N.shiftl_mul_pow2; change 0x0F with (N.ones 4);
    rewrite N.land_ones; change (2 ^ 4) with 16; change (2 ^ 6) with 64;
    change (2 ^ 12) with 4096;
    rewrite (lor_add (_ * 64) _ 6) by (cbn; nlia);
    rewrite (lor_add (_ * 4096) _ 12) by (cbn; nlia); nlia. }
destruct bs as [|b1 [|b2 [|b3 [|b4 [|]]]]]; try done. cbn [map] in Henc.
injection Henc as Hb1 Hb2 Hb3 Hb4.
rewrite (lor_add 0xF0 (c / 262144) 3) in Hb1 by (cbn; nlia || done).
rewrite (lor_add 0x80 (c / 4096 mod 64) 6) in Hb2 by (cbn; nlia || done).
rewrite (lor_add 0x80 (c / 64 mod 64) 6) in Hb3 by (cbn; nlia || done).
rewrite (lor_add 0x80 (c mod 64) 6) in Hb4 by (cbn; nlia || done).
cbn [app utf8_decode]. rewrite Hb1, Hb2, Hb3, Hb4. unfold is_continuation.
decide_comparisons; f_equal;
  rewrite !low6_mod, !N.shiftl_mul_pow2; change 0x07 with (N.ones 3);
  rewrite N.land_ones; change (2 ^ 3) with 8; change (2 ^ 6) with 64;
  change (2 ^ 12) with 4096; change (2 ^ 18) with 262144;
  rewrite (lor_add (_ * 64) _ 6) by (cbn; nlia);
  rewrite (lor_add (_ * 4096) _ 12) by (cbn; nlia);
  rewrite (lor_add (_ * 262144) _ 18) by (cbn; nlia); nlia.
Qed.

Lemma utf8_decode_encode errors s bs :
  utf8_encode s = Some bs → utf8_decode errors bs = DecodedStr s.
Proof.
unfold utf8_encode. intros H.
destruct (mapM _ s) as [bss|] eqn:Hm; [|done]. cbn in H. simplify_eq.
apply mapM_Some in Hm. induction Hm as [|c bs s bss Hc _ IH]; [done|].
cbn [concat]. case_match eqn:Hv; [done|].
by rewrite (utf8_decode_encode1 errors c bs (concat bss) Hv Hc), IH.
Qed.

(** X24: the bytes that [start] writes as the probe are valid UTF-8: they
    decode, under the strict handler, to the probe command followed by
    CR LF.  So a device that echoes the probe it was sent has the probe
    command published as its data, stripped. *)
Theorem X24_echoed_probe_is_published cfg data :
  probe_data cfg = [data] →
  utf8_decode strict data = DecodedStr (probe_command cfg ++ [0x0D; 0x0A])
  ∧ line_payload data = strip (probe_command cfg ++ [0x0D; 0x0A]).
Proof.
unfold probe_data. destruct (probe_command cfg) as [|c p]; [done|].
destruct (utf8_encode _) as [bs|] eqn:Henc; [|done]. intros [= ->].
split; [by apply utf8_decode_encode|].
unfold line_payload. by rewrite (utf8_decode_encode ignore _ _ Henc).
Qed.

Section LoopReaders.

Context (fnmatch : str → str → bool) (set_iter : gset str → list str).
Context (utcnow_isoformat : nat → str).
Hypothesis set_iter_perm : ∀ X, set_iter X ≡ₚ elements X.

Lemma start_new_stores cfg env d s s' :
  start_new utcnow_isoformat cfg env d s = (Ret tt, s') →
  ∃ r' w',
    readers s' !! d = Some r'
    ∧ start utcnow_isoformat (SerialReader_init d (lit "multi_serial") cfg)
        (open_serial_connection env d) (world s) = (Ret r', w').
Proof.
unfold start_new, log, store, in_world, mbind, M_bind, modify.
cbn -[start SerialReader_init lit].
destruct (start _ _ _ _) as [[r'|e] w'] eqn:Hs; cbn -[start SerialReader_init lit];
  [|done].
intros [= <-]. exists r', w'. split; [|done]. cbn. by rewrite lookup_insert_eq.
Qed.

Lemma start_new_loop_fresh cfg env l s s' :
  NoDup l →
  for_each l (start_new utcnow_isoformat cfg env) s = (Ret tt, s') →
  ∀ d, d ∈ l →
    ∃ r' w1 w2,
      readers s' !! d = Some r'
      ∧ start utcnow_isoformat (SerialReader_init d (lit "multi_serial") cfg)
          (open_serial_connection env d) w1 = (Ret r', w2).
Proof.
intros Hnd. revert s. induction Hnd as [|x l Hx Hnd IH]; intros s Hrun d Hd.
- by apply elem_of_nil in Hd.
- cbn [for_each] in Hrun. unfold mbind at 1, M_bind at 1 in Hrun.
  destruct (start_new utcnow_isoformat cfg env x s) as [[[]|e] s1] eqn:Hstep; [|done].
  apply elem_of_cons in Hd as [->|Hd]; [|by eapply IH].
  destruct (start_new_stores _ _ _ _ _ Hstep) as (r' & w' & Hr' & Hstart).
  exists r', (world s), w'. split; [|done].
  destruct (start_new_loop fnmatch set_iter utcnow_isoformat set_iter_perm cfg env l s1)
    as (r2 & s2 & created & rest & Hrun2 & Hl & _ & _ & _ & Hkeep & _).
  rewrite Hrun in Hrun2. simplify_eq. rewrite Hkeep; [done|].
  intros Hc. apply Hx. set_solver.
Qed.

(** X25: in a tick that completes, every device that enters the candidate
    set gets a reader of its own that has been started: the reader filed
    under the device is the one that [start] returns for a new reader of
    that device, these settings and the outcome of opening that device. *)
Theorem X25_new_devices_get_started_readers cfg env s s' ports d :
  list_candidate_ports fnmatch set_iter cfg (comports env) = Ret ports →
  tick fnmatch set_iter utcnow_isoformat cfg env s = (Ret tt, s') →
  d ∈ ports →
  d ∉ dom (readers s) →
  ∃ r' w1 w2,
    readers s' !! d = Some r'
    ∧ start utcnow_isoformat (SerialReader_init d (lit "multi_serial") cfg)
        (open_serial_connection env d) w1 = (Ret r', w2).
Proof.
intros Hp Htick Hd Hnew. rewrite (tick_unfold _ _ _ _ _ _ _ Hp) in Htick.
unfold mbind at 1, M_bind at 1 in Htick.
destruct (stop_removed_loop fnmatch set_iter set_iter_perm
            (set_iter (dom (readers s) ∖ list_to_set ports)) s)
  as (r1 & s1 & stopped & rest1 & Hrun1 & Hl1 & _ & _ & _ & Hrs1 & _).
{ by apply set_iter_NoDup. }
{ intros k Hk. apply (set_iter_elem set_iter set_iter_perm) in Hk. set_solver. }
rewrite Hrun1 in Htick. destruct r1 as [[]|e]; [|done].
unfold mbind at 1, M_bind at 1, gets at 1 in Htick.
eapply (start_new_loop_fresh cfg env _ s1 s'); [by apply set_iter_NoDup | exact Htick |].
apply (set_iter_elem set_iter set_iter_perm).
apply elem_of_difference. split; [by apply elem_of_list_to_set|].
rewrite elem_of_dom, Hrs1. case_decide; [by intros [? ?]|].
by rewrite <- elem_of_dom.
Qed.

Lemma run_task_ended self reads w :
  task self ≠ Some Pending → run_task utcnow_isoformat self reads w = (Ret self, w).
Proof. unfold run_task. by destruct (task self) as [[]|]. Qed.

Lemma sleep_keeps_ended env dev r :
  task r ≠ Some Pending →
  preserves (λ s, readers s !! dev = Some r) (sleep set_iter utcnow_isoformat env).
Proof.
intros Ht. unfold sleep. apply preserves_gets_bind. intros s Hs.
apply (preserves_for_each (λ s, readers s !! dev = Some r)); [|done].
intros d _ s2 Hs2. destruct (readers s !! d) as [rd|] eqn:Hrd; [|done].
unfold mbind, M_bind, in_world, store, modify.
destruct (decide (d = dev)) as [->|Hne].
- rewrite Hs in Hrd. simplify_eq. rewrite run_task_ended by done. cbn.
  by rewrite lookup_insert_eq.
- destruct (run_task_same_device utcnow_isoformat rd (incoming env d) (world s2))
    as (r' & w' & -> & _). cbn. by rewrite lookup_insert_ne.
Qed.

Lemma tick_keeps_wanted cfg env dev r :
  (∀ ports, list_candidate_ports fnmatch set_iter cfg (comports env) = Ret ports →
            dev ∈ ports) →
  preserves (λ s, readers s !! dev = Some r)
    (tick fnmatch set_iter utcnow_isoformat cfg env).
Proof.
intros Hw s Hs.
destruct (list_candidate_ports fnmatch set_iter cfg (comports env)) as [ports|e] eqn:Hp.
- destruct (tick_spec fnmatch set_iter utcnow_isoformat set_iter_perm cfg env s ports Hp)
    as (r0 & s' & stopped & created & -> & _ & _ & _ & _ & _ & _ & _ & _ & _ & Hkeep).
  destruct (Hkeep dev) as (_ & _ & Hk).
  + apply elem_of_dom. by eexists.
  + apply elem_of_list_to_set. by apply Hw.
  + cbn. by rewrite Hk.
- unfold tick. unfold mbind at 1, M_bind at 1, lift at 1. by rewrite Hp.
Qed.

(** X26: there is no retry.  A reader whose task is not pending (its open
    failed, or its stream ended) stays in the dictionary exactly as it is
    for as many passes as its device stays a candidate, however the loop
    ends: it is neither stopped, restarted nor replaced. *)
Theorem X26_ended_reader_is_never_retried cfg envs dev r s :
  readers s !! dev = Some r →
  task r ≠ Some Pending →
  (∀ env ports, env ∈ envs →
     list_candidate_ports fnmatch set_iter cfg (comports env) = Ret ports →
     dev ∈ ports) →
  readers (loop fnmatch set_iter utcnow_isoformat cfg envs s).2 !! dev = Some r.
Proof.
intros Hs Ht Hw. revert s Hs.
change (preserves (λ s, readers s !! dev = Some r)
          (loop fnmatch set_iter utcnow_isoformat cfg envs)).
induction envs as [|env envs IH]; [apply preserves_ret|].
cbn [loop]. apply preserves_bind.
- apply tick_keeps_wanted. intros ports. apply Hw. left.
- intros _. apply preserves_bind; [by apply sleep_keeps_ended|].
  intros _. apply IH. intros env' ports Henv. apply Hw. by right.
Qed.

End LoopReaders.

(** * The properties at work on a concrete host *)

(** The third scenario of the specification. *)
Example scenario_filter :
  list_candidate_ports posix_fnmatch elements ex_cfg (Ret [ttyUSB0; ttyUSB1; ttyS0])
  = Ret [ttyUSB0].
Proof. vm_compute. reflexivity. Qed.

(** The matcher is anchored at both ends and distinguishes case. *)
Example posix_fnmatch_examples :
  posix_fnmatch ttyUSB0 (lit "/dev/ttyUSB*") = true
  ∧ posix_fnmatch ttyUSB0 (lit "/dev/ttyusb*") = false
  ∧ posix_fnmatch ttyUSB0 (lit "/dev/tty") = false
  ∧ posix_fnmatch ttyUSB0 (lit "ttyUSB0") = false
  ∧ posix_fnmatch ttyUSB0 (lit "/dev/tty???[0-9]") = true
  ∧ posix_fnmatch ttyUSB0 (lit "/dev/tty[!A-Z]*") = false.
Proof. vm_compute. done. Qed.

Lemma elements_perm (X : gset str) : elements X ≡ₚ elements X.
Proof. reflexivity. Defined.

Lemma C1_witness :
  reader (ex_reading ttyUSB0) = Some stream_reader
  ∧ [x68; x69; x0a] ≠ ([] : bytes)
  ∧ ∃ s, utf8_decode ignore [x68; x69; x0a] = DecodedStr s
         ∧ (∀ s', utf8_decode strict [x68; x69; x0a] = DecodedStr s' → s' = s)
         ∧ _read_loop ex_clock (ex_reading ttyUSB0) [[x68; x69; x0a]] ex_world
           = _read_loop ex_clock (ex_reading ttyUSB0) []
               (told (data_publish (ex_reading ttyUSB0) (strip s) (ex_clock 0)
                      :: [discovery_publish (ex_reading ttyUSB0)]) ex_world).
Proof.
split; [reflexivity|]. split; [discriminate|].
apply (C1_line_yields_one_data_message ex_clock (ex_reading ttyUSB0) stream_reader
         [x68; x69; x0a] [] ex_world); [reflexivity | discriminate].
Defined.

(** C1 as it is worded fails.  A line of invalid bytes is published as the
    empty text, not as its hexadecimal; and the text of a valid line is
    not its decoding, the white space around it is gone. *)
Lemma C1_counterexample :
  spec_line_data [xff; xfe; x0a] = lit "fffe0a"
  ∧ bus (_read_loop ex_clock (ex_reading ttyUSB0) [[xff; xfe; x0a]] ex_world).2
    = [data_publish (ex_reading ttyUSB0) [] (ex_clock 0);
       discovery_publish (ex_reading ttyUSB0)]
  ∧ data_publish (ex_reading ttyUSB0) [] (ex_clock 0)
    ≠ data_publish (ex_reading ttyUSB0) (spec_line_data [xff; xfe; x0a]) (ex_clock 0)
  ∧ spec_line_data [xff; xfe] = lit "fffe"
  ∧ line_payload [xff; xfe] = []
  ∧ spec_line_data [x20; x68; x69; x0a] = lit " hi" ++ [0x0A]
  ∧ line_payload [x20; x68; x69; x0a] = lit "hi".
Proof. vm_compute. repeat split; discriminate. Qed.

Lemma C2_witness :
  list_candidate_ports posix_fnmatch elements ex_cfg (comports ex_env) = Ret [ttyUSB0]
  ∧ ∃ r s',
      tick posix_fnmatch elements ex_clock ex_cfg ex_env ex_state = (r, s')
      ∧ r = Ret tt
      ∧ calls s' = [Stop ttyACM0; Create ttyUSB0]
      ∧ dom (readers s') = {[ ttyUSB0 ]}.
Proof.
assert (list_candidate_ports posix_fnmatch elements ex_cfg (comports ex_env)
        = Ret [ttyUSB0]) as Hp by (vm_compute; reflexivity).
split; [exact Hp|].
destruct (C2_tick_reconciles posix_fnmatch elements ex_clock elements_perm
            ex_cfg ex_env ex_state [ttyUSB0] Hp)
  as (r & s' & stopped & created & Htick & Hcalls & _ & _ & _ & _ & _ & Hret & _).
exists r, s'. split; [exact Htick|].
assert (tick posix_fnmatch elements ex_clock ex_cfg ex_env ex_state
        = (Ret tt, s')) as Hrun.
{ rewrite Htick. f_equal. vm_compute in Htick. congruence. }
assert (r = Ret tt) as Hr by congruence.
split; [exact Hr|]. split.
- vm_compute in Hrun. injection Hrun as <-. reflexivity.
- destruct (Hret Hr) as (Hdom & _). rewrite Hdom. set_solver.
Defined.

Lemma C3_witness :
  loop posix_fnmatch elements ex_clock ex_cfg [] initial = (Ret tt, initial)
  ∧ comports ex_env_fail = Raise (Exception (lit "OSError"))
  ∧ tick posix_fnmatch elements ex_clock ex_cfg ex_env_fail initial
    = (Raise (Exception (lit "OSError")), initial)
  ∧ ∃ e' s',
      main_async posix_fnmatch elements ex_clock ex_cfg ([] ++ ex_env_fail :: [ex_env])
        initial = (Raise e', s')
      ∧ calls s' = calls initial.
Proof.
split; [reflexivity|]. split; [reflexivity|].
destruct (C3_listing_failure_leaves_the_loop posix_fnmatch elements ex_clock
            elements_perm ex_cfg [] ex_env_fail [ex_env] initial initial
            (Exception (lit "OSError")) eq_refl eq_refl)
  as (Htick & _ & e' & s' & Hmain & Hcalls & _).
split; [exact Htick|]. exists e', s'. split; [exact Hmain | exact Hcalls].
Defined.

(** C3 as it is worded fails.  When the first listing fails, the script
    ends with the listing's exception and has created no reader, although
    the next listing would have shown a candidate; had the failure counted
    as an empty candidate set, the loop would be running with a reader for
    that candidate. *)
Lemma C3_counterexample :
  (run posix_fnmatch elements ex_clock ex_cfg [ex_env_fail; ex_env]).1
  = Raise (Exception (lit "OSError"))
  ∧ calls (run posix_fnmatch elements ex_clock ex_cfg [ex_env_fail; ex_env]).2 = []
  ∧ readers (run posix_fnmatch elements ex_clock ex_cfg [ex_env_fail; ex_env]).2 = ∅
  ∧ (run posix_fnmatch elements ex_clock ex_cfg [ex_env_none; ex_env]).1 = Ret tt
  ∧ calls (run posix_fnmatch elements ex_clock ex_cfg [ex_env_none; ex_env]).2
    = [Create ttyUSB0].
Proof. vm_compute. done. Qed.

Lemma C4_witness :
  ∃ l, list_candidate_ports posix_fnmatch elements ex_cfg (Ret [ttyUSB0; ttyUSB1; ttyS0])
       = Ret l
       ∧ ∀ p, p ∈ l ↔
              p ∈ [ttyUSB0; ttyUSB1; ttyS0]
              ∧ (∃ pat, pat ∈ include_patterns ex_cfg ∧ posix_fnmatch p pat = true)
              ∧ (∀ pat, pat ∈ exclude_patterns ex_cfg → posix_fnmatch p pat = false).
Proof.
exact (C4_candidate_iff_filter posix_fnmatch elements elements_perm ex_cfg
         [ttyUSB0; ttyUSB1; ttyS0]).
Defined.

Lemma C5_witness :
  list_candidate_ports posix_fnmatch elements ex_cfg (comports ex_env) = Ret [ttyUSB0]
  ∧ readers ex_state_failed !! ttyUSB0 = Some (ex_failed ttyUSB0)
  ∧ ttyUSB0 ∈ [ttyUSB0]
  ∧ bus (start ex_clock (ex_failed ttyUSB0) (Raise (Exception (lit "ENOENT"))) ex_world).2
    = [status_publish (ex_failed ttyUSB0) (lit "error") (Some (lit "ENOENT")) (ex_clock 0)]
  ∧ ∃ r s' cs,
      tick posix_fnmatch elements ex_clock ex_cfg ex_env ex_state_failed = (r, s')
      ∧ calls s' = calls ex_state_failed ++ cs
      ∧ (Stop ttyUSB0 ∉ cs) ∧ (Create ttyUSB0 ∉ cs)
      ∧ readers s' !! ttyUSB0 = Some (ex_failed ttyUSB0).
Proof.
assert (list_candidate_ports posix_fnmatch elements ex_cfg (comports ex_env)
        = Ret [ttyUSB0]) as Hp by (vm_compute; reflexivity).
assert (readers ex_state_failed !! ttyUSB0 = Some (ex_failed ttyUSB0)) as Hs
  by (vm_compute; reflexivity).
assert (ttyUSB0 ∈ [ttyUSB0]) as Hd by left.
destruct (C5_open_failure_is_terminal posix_fnmatch elements ex_clock
            elements_perm ttyUSB0 (lit "multi_serial") ex_cfg (lit "ENOENT")
            ex_world ex_env ex_state_failed [ttyUSB0] Hp Hs Hd)
  as (Hstart & _ & _ & _ & _ & _ & Htick).
split; [exact Hp|]. split; [exact Hs|]. split; [exact Hd|]. split; [|exact Htick].
unfold ex_failed. rewrite Hstart. reflexivity.
Defined.

Lemma C6_witness :
  reader (ex_reading ttyUSB0) = Some stream_reader
  ∧ task (ex_reading ttyUSB0) = Some Pending
  ∧ Forall (λ line : bytes, line ≠ []) [[x68; x69; x0a]]
  ∧ ∃ self' w',
      run_task ex_clock (ex_reading ttyUSB0) ([[x68; x69; x0a]] ++ [] :: [[x6f; x0a]])
        ex_world = (Ret self', w')
      ∧ task self' = Some Done
      ∧ bus w' = [data_publish (ex_reading ttyUSB0) (lit "hi") (ex_clock 0);
                  discovery_publish (ex_reading ttyUSB0);
                  status_publish (ex_reading ttyUSB0) (lit "disconnected")
                    (Some (lit "eof")) (ex_clock 1)].
Proof.
assert (Forall (λ line : bytes, line ≠ []) [[x68; x69; x0a]]) as Hl
  by (repeat constructor; discriminate).
split; [reflexivity|]. split; [reflexivity|]. split; [exact Hl|].
destruct (C6_eof_is_terminal ex_clock (ex_reading ttyUSB0) stream_reader
            [[x68; x69; x0a]] [[x6f; x0a]] ex_world eq_refl eq_refl Hl)
  as (_ & Hrun & _).
eexists _, _. split; [exact Hrun|]. split; reflexivity.
Defined.

Lemma C9_witness :
  device (ex_reading ttyUSB0) = device (ex_failed ttyUSB0)
  ∧ discovery_prefix (cfg (ex_reading ttyUSB0)) = discovery_prefix (cfg (ex_failed ttyUSB0))
  ∧ ∃ m, (_ensure_discovery (ex_reading ttyUSB0) ex_world).2
         = {| bus := bus ex_world ++ [m]; clock := clock ex_world;
              connected := connected ex_world |}
         ∧ (_ensure_discovery (ex_failed ttyUSB0) (told [] ex_world)).2
           = {| bus := bus (told [] ex_world) ++ [m]; clock := clock (told [] ex_world);
                connected := connected (told [] ex_world) |}
         ∧ topic m = lit "homeassistant/sensor/_dev_ttyUSB0/last/config".
Proof.
split; [reflexivity|]. split; [reflexivity|].
destruct (C9_discovery_deterministic (ex_reading ttyUSB0) (ex_failed ttyUSB0)
            ex_world (told [] ex_world) eq_refl eq_refl)
  as ((m & H1 & H2 & H3 & _) & _).
exists m. split; [exact H1|]. split; [exact H2|]. rewrite H3. reflexivity.
Defined.

Lemma C10_witness :
  ∃ l, list_candidate_ports posix_fnmatch elements ex_cfg
         (Ret [lit "/dev/ttyUSB3"; ttyUSB0; lit "/dev/ttyUSB3"; ttyUSB1; ttyUSB0]) = Ret l
       ∧ l = [ttyUSB0; lit "/dev/ttyUSB3"]
       ∧ StronglySorted str_lt l
       ∧ NoDup l.
Proof.
destruct (C10_candidates_sorted_nodup posix_fnmatch elements elements_perm ex_cfg
            [lit "/dev/ttyUSB3"; ttyUSB0; lit "/dev/ttyUSB3"; ttyUSB1; ttyUSB0])
  as (l & Hl & Hs & Hn & _).
exists l. split; [exact Hl|]. split; [|split; [exact Hs | exact Hn]].
vm_compute in Hl. injection Hl as <-. reflexivity.
Defined.

(** C7 at a concrete reader: [stop()] raises and leaves the connection
    open. *)
Example stop_live_reader :
  stop (ex_reading ttyUSB0)
  = (Raise CancelledError,
     {| device := ttyUSB0; topic_prefix := lit "multi_serial"; cfg := ex_cfg;
        reader := Some stream_reader; writer := Some ex_writer;
        task := Some Cancelled |})
  ∧ is_closing ex_writer = false.
Proof. done. Qed.

(** Unplugging a device whose reader is still reading ends the script:
    the tick that removes it raises out of the loop. *)
Example unplug_live_reader :
  (run posix_fnmatch elements ex_clock ex_cfg [ex_env; ex_env_none]).1
  = Raise CancelledError.
Proof. vm_compute. reflexivity. Qed.

(** ** The further properties on the same host *)

Lemma X2_witness :
  Forall clean [lit "/dev/ttyUSB*"; lit "/dev/ttyACM*"]
  ∧ _split_csv (lit "/dev/ttyUSB*,/dev/ttyACM*") = [lit "/dev/ttyUSB*"; lit "/dev/ttyACM*"].
Proof.
assert (Forall clean [lit "/dev/ttyUSB*"; lit "/dev/ttyACM*"]) as Hc.
{ constructor; [|constructor; [|constructor]];
    (split; [discriminate|]; split; [vm_compute; reflexivity | compute_done]). }
split; [exact Hc|]. exact (X2_split_csv_join _ Hc).
Defined.

Lemma X3_witness :
  ∃ interval cfg,
    load_settings (λ _, Ret 1) id {[ lit "INCLUDE_PATTERNS" := lit " , ," ]}
    = Ret (interval, cfg)
    ∧ include_patterns cfg = []
    ∧ list_candidate_ports posix_fnmatch elements cfg (Ret [ttyUSB0; ttyACM0]) = Ret [].
Proof.
destruct (load_settings (λ _, Ret 1) id {[ lit "INCLUDE_PATTERNS" := lit " , ," ]})
  as [[interval cfg]|e] eqn:Hload; [|by vm_compute in Hload].
exists interval, cfg. split; [reflexivity|].
apply (X3_blank_include_disables_scanning (λ _, Ret 1) id elements elements_perm
         posix_fnmatch {[ lit "INCLUDE_PATTERNS" := lit " , ," ]} (lit " , ,")
         interval cfg [ttyUSB0; ttyACM0]); [vm_compute; reflexivity | | exact Hload].
repeat (constructor; [first [by left | by right]|]). constructor.
Defined.

Lemma X4_witness :
  ∃ interval cfg l,
    load_settings (λ _, Ret 1) id ∅ = Ret (interval, cfg)
    ∧ list_candidate_ports posix_fnmatch elements cfg (Ret [ttyUSB0; ttyS0; ttyACM0]) = Ret l
    ∧ ∀ p, p ∈ l ↔
           p ∈ [ttyUSB0; ttyS0; ttyACM0]
           ∧ ((∃ rest, p = lit "/dev/ttyUSB" ++ rest) ∨ (∃ rest, p = lit "/dev/ttyACM" ++ rest)).
Proof.
destruct (load_settings (λ _, Ret 1) id ∅) as [[interval cfg]|e] eqn:Hload;
  [|by vm_compute in Hload].
destruct (X4_default_candidates (λ _, Ret 1) id elements elements_perm ∅
            interval cfg [ttyUSB0; ttyS0; ttyACM0]) as (l & Hl & Hiff);
  [reflexivity | reflexivity | exact Hload |].
exists interval, cfg, l. split; [reflexivity|]. split; [exact Hl | exact Hiff].
Defined.

Lemma X5_witness :
  start ex_clock (ex_failed ttyUSB0) (Ret (stream_reader, ex_writer)) ex_world
  = (Ret (ex_reading ttyUSB0),
     told [status_publish (ex_failed ttyUSB0) (lit "connected") None (ex_clock 0)] ex_world).
Proof.
apply (X5_start_connects ex_clock (ex_failed ttyUSB0) stream_reader ex_writer ex_world).
intros e He. discriminate He.
Defined.

Lemma X6_witness :
  stop (set_task Done (ex_reading ttyUSB0))
  = (Ret tt, set_writer (close ex_writer) (set_task Done (ex_reading ttyUSB0))).
Proof.
apply (X6_stop_closes_writer (set_task Done (ex_reading ttyUSB0)) ex_writer).
- intros t [= <-]. reflexivity.
- reflexivity.
- reflexivity.
- intros e He. discriminate He.
Defined.

Lemma X8_witness :
  ∃ self' w' ms,
    run_task ex_clock (ex_reading ttyUSB0) [[x68; x69; x0a]; [x6f; x0a]; []; [x78; x0a]]
      ex_world = (Ret self', w')
    ∧ bus w' = bus ex_world ++ ms
    ∧ filter (λ m, topic m = data_topic (ex_reading ttyUSB0)) ms
      = [data_publish (ex_reading ttyUSB0) (lit "hi") (ex_clock 0);
         data_publish (ex_reading ttyUSB0) (lit "o") (ex_clock 1)].
Proof.
exact (X8_data_messages_follow_lines ex_clock (ex_reading ttyUSB0) stream_reader
         [[x68; x69; x0a]; [x6f; x0a]; []; [x78; x0a]] ex_world eq_refl eq_refl).
Defined.

Lemma X9_witness :
  Forall ascii_byte [x68; x69; x0d; x0a]
  ∧ line_payload [x68; x69; x0d; x0a] = lit "hi".
Proof.
assert (Forall ascii_byte [x68; x69; x0d; x0a]) as Hl
  by (repeat (constructor; [exact eq_refl|]); constructor).
split; [exact Hl|].
destruct (X9_ascii_line_payload [x68; x69; x0d; x0a] Hl) as [_ Htext].
apply (Htext [x68; x69]); [|reflexivity | by left].
repeat (constructor; [exact eq_refl|]); constructor.
Defined.

Lemma X11_witness :
  _read_loop ex_clock (ex_reading ttyUSB0) [[x20; x0a]] ex_world
  = _read_loop ex_clock (ex_reading ttyUSB0) []
      (told [data_publish (ex_reading ttyUSB0) [] (ex_clock 0);
             discovery_publish (ex_reading ttyUSB0)] ex_world).
Proof.
apply (X11_blank_line_is_published ex_clock (ex_reading ttyUSB0) stream_reader
         [x20; x0a] [] ex_world); [reflexivity | discriminate |].
repeat (constructor; [split; exact eq_refl|]). constructor.
Defined.


Lemma X16_witness :
  ∃ s' ports,
    loop posix_fnmatch elements ex_clock ex_cfg ([ex_env_none] ++ [ex_env]) initial
    = (Ret tt, s')
    ∧ list_candidate_ports posix_fnmatch elements ex_cfg (comports ex_env) = Ret ports
    ∧ dom (readers s') = list_to_set ports.
Proof.
assert ((loop posix_fnmatch elements ex_clock ex_cfg ([ex_env_none] ++ [ex_env]) initial).1
        = Ret tt) as Hr by (vm_compute; reflexivity).
destruct (loop posix_fnmatch elements ex_clock ex_cfg ([ex_env_none] ++ [ex_env]) initial)
  as [r s'] eqn:Hrun.
simpl in Hr. subst r.
destruct (X16_loop_manages_the_candidates posix_fnmatch elements ex_clock elements_perm
            ex_cfg [ex_env_none] ex_env initial s' Hrun) as (ports & Hp & Hdom).
exists s', ports. split; [reflexivity|]. split; [exact Hp | exact Hdom].
Defined.

Lemma X17_witness :
  ∃ s', shutdown elements ex_state = (Ret tt, s')
        ∧ readers s' = (λ rd, (stop rd).2) <$> readers ex_state
        ∧ connected (world s') = false.
Proof.
destruct (X17_shutdown_releases_every_reader elements elements_perm ex_state)
  as (s' & Hrun & Hrs & Hc & _).
- intros d rd Hd.
  change (readers ex_state)
    with ({[ ttyACM0 := ex_failed ttyACM0 ]} : gmap str SerialReader) in Hd.
  apply lookup_singleton_Some in Hd as [_ <-]. reflexivity.
- exists s'. split; [exact Hrun|]. split; [exact Hrs | exact Hc].
Defined.

Lemma X18_witness :
  ∃ e s',
    shutdown elements
      {| readers := {[ ttyUSB0 := ex_reading ttyUSB0 ]}; world := ex_world; calls := [] |}
    = (Raise e, s')
    ∧ world s' = ex_world.
Proof.
apply (X18_shutdown_with_live_reader_raises elements elements_perm
         {| readers := {[ ttyUSB0 := ex_reading ttyUSB0 ]}; world := ex_world; calls := [] |}
         ttyUSB0 (ex_reading ttyUSB0)); [vm_compute; reflexivity | reflexivity].
Defined.

Lemma X19_witness :
  stop (set_task Done (ex_reading ttyUSB0))
  = (Ret tt, set_writer (close ex_writer) (set_task Done (ex_reading ttyUSB0)))
  ∧ stop (set_writer (close ex_writer) (set_task Done (ex_reading ttyUSB0)))
    = (Ret tt, set_writer (close ex_writer) (set_task Done (ex_reading ttyUSB0))).
Proof.
split; [reflexivity|].
apply (X19_stop_that_returns_is_idempotent (set_task Done (ex_reading ttyUSB0))).
reflexivity.
Defined.

Lemma X24_witness :
  probe_data
    {| mqtt_broker := []; mqtt_username := []; mqtt_password := [];
       include_patterns := []; exclude_patterns := []; enable_discovery := true;
       discovery_prefix := lit "homeassistant"; probe_command := lit "AT" |}
  = [[x41; x54; x0d; x0a]]
  ∧ utf8_decode strict [x41; x54; x0d; x0a] = DecodedStr (lit "AT" ++ [0x0D; 0x0A])
  ∧ line_payload [x41; x54; x0d; x0a] = lit "AT".
Proof.
split; [vm_compute; reflexivity|].
apply (X24_echoed_probe_is_published
         {| mqtt_broker := []; mqtt_username := []; mqtt_password := [];
            include_patterns := []; exclude_patterns := []; enable_discovery := true;
            discovery_prefix := lit "homeassistant"; probe_command := lit "AT" |}
         [x41; x54; x0d; x0a]).
vm_compute. reflexivity.
Defined.

Lemma X25_witness :
  ∃ s' r' w1 w2,
    tick posix_fnmatch elements ex_clock ex_cfg ex_env ex_state = (Ret tt, s')
    ∧ readers s' !! ttyUSB0 = Some r'
    ∧ start ex_clock (SerialReader_init ttyUSB0 (lit "multi_serial") ex_cfg)
        (open_serial_connection ex_env ttyUSB0) w1 = (Ret r', w2).
Proof.
assert ((tick posix_fnmatch elements ex_clock ex_cfg ex_env ex_state).1 = Ret tt) as Hr
  by (vm_compute; reflexivity).
destruct (tick posix_fnmatch elements ex_clock ex_cfg ex_env ex_state) as [r s'] eqn:Hrun.
simpl in Hr. subst r.
destruct (X25_new_devices_get_started_readers posix_fnmatch elements ex_clock
            elements_perm ex_cfg ex_env ex_state s' [ttyUSB0] ttyUSB0)
  as (r' & w1 & w2 & Hr' & Hstart);
  [vm_compute; reflexivity | exact Hrun | by left
  | apply not_elem_of_dom; vm_compute; reflexivity |].
exists s', r', w1, w2. split; [reflexivity|]. split; [exact Hr' | exact Hstart].
Defined.

Lemma X26_witness :
  readers ex_state_failed !! ttyUSB0 = Some (ex_failed ttyUSB0)
  ∧ readers (loop posix_fnmatch elements ex_clock ex_cfg [ex_env; ex_env]
               ex_state_failed).2 !! ttyUSB0
    = Some (ex_failed ttyUSB0).
Proof.
assert (readers ex_state_failed !! ttyUSB0 = Some (ex_failed ttyUSB0)) as Hs
  by (vm_compute; reflexivity).
split; [exact Hs|].
apply (X26_ended_reader_is_never_retried posix_fnmatch elements ex_clock elements_perm
         ex_cfg [ex_env; ex_env] ttyUSB0 (ex_failed ttyUSB0) ex_state_failed Hs).
- discriminate.
- intros env ports Henv Hp.
  assert (env = ex_env) as ->.
  { apply elem_of_cons in Henv as [->|Henv]; [done|].
    apply elem_of_cons in Henv as [->|Henv]; [done|]. by apply elem_of_nil in Henv. }
  vm_compute in Hp. injection Hp as <-. by left.
Defined.
